(** * Verification of scrape_p2p_docs.py

    A shallow embedding of the scraper (src/scrape_p2p_docs.py) and the
    properties its specification states about it.

    Layout:
    - [Py]      : the Python primitives the script relies on (exceptions,
                  str methods, posixpath, range, int and float arithmetic);
    - [Re]      : the fragment of the [re] engine needed for the link pattern;
    - [Eff]     : the effects of the script, as traces of events;
    - [world]   : what the script cannot decide itself (the network, the
                  random generator, the file system, the scheduler, the
                  clock, [urljoin]);
    - [Scraper] : the script, function by function;
    - the vocabulary of the statements, then the theorems.

    Conventions.  Python [str] is modelled as [string], a sequence of 8-bit
    characters; every character the script inspects is ASCII, and
    [str.title] and [str.lower] are the ASCII ones: they are those of Python
    on ASCII text, and statements about the text of a title or an anchor
    say so.  Python [int] is [Z].  Python [float] is IEEE-754 binary64 with
    the operations of [SpecFloat].  A Python expression or statement that
    can raise evaluates to an [outcome]; exceptions are told apart as the
    handlers of the script do ([Exception], [KeyboardInterrupt], the rest of
    [BaseException]).  [os.path] is [posixpath].  [time.sleep] is that of
    CPython 3.11: it raises when the delay, in nanoseconds, does not fit a
    signed 64-bit integer.  The operating system is taken to carry out the
    sleeps it is handed. *)

From Stdlib Require Import ZArith Lia Ascii QArith.
From Stdlib Require Import SpecFloat.
From stdpp Require Import base strings list gmap pretty.

Local Open Scope Z_scope.

(** ** Python primitives *)
Module Py.

(** An exception.  The handlers of the script tell three kinds apart: the
    instances of [Exception] (here with the class name and [str(exc)]), the
    instances of [KeyboardInterrupt], and the instances of the other classes
    that derive from [BaseException] only ([SystemExit], [GeneratorExit]). *)
Inductive exn : Type :=
| Exception (kind : string) (msg : string)
| KeyboardInterrupt
| BaseException (kind : string) (msg : string).

(** [str(e)] *)
Definition exn_msg (e : exn) : string :=
  match e with
  | Exception _ m | BaseException _ m => m
  | KeyboardInterrupt => ""
  end.

(** [isinstance(e, Exception)] *)
Definition is_Exception (e : exn) : bool :=
  match e with
  | Exception _ _ => true
  | KeyboardInterrupt | BaseException _ _ => false
  end.

(** The result of evaluating an expression or running a statement. *)
Inductive outcome (A : Type) : Type :=
| Returned (a : A)
| Raised (e : exn).
Global Arguments Returned {A} a.
Global Arguments Raised {A} e.

(** [range(n)] *)
Definition range (n : Z) : list Z := seqZ 0 n.

(** [str(i)] and [f"{i}"] for an int. *)
Definition str_of_int (i : Z) : string := pretty i.

(** *** str methods *)

(** [s.startswith(p)] *)
Fixpoint startswith (p s : string) : bool :=
  match p, s with
  | EmptyString, _ => true
  | String a p', String b s' => if decide (a = b) then startswith p' s' else false
  | String _ _, EmptyString => false
  end.

(** [s.endswith(p)] *)
Definition endswith (p s : string) : bool :=
  startswith (String.rev p) (String.rev s).

(** [s[n:]] *)
Fixpoint drop_str (n : nat) (s : string) : string :=
  match n, s with
  | O, _ => s
  | S n', String _ s' => drop_str n' s'
  | S _, EmptyString => EmptyString
  end.

(** [s.replace(old, new)] for a non-empty [old]: occurrences are replaced
    left to right and do not overlap.  [skip] counts the characters of an
    occurrence that was just replaced and still have to be passed over. *)
Fixpoint replace_from (old new : string) (skip : nat) (s : string) : string :=
  match s with
  | EmptyString => EmptyString
  | String c s' =>
      match skip with
      | S k => replace_from old new k s'
      | O =>
          if startswith old s
          then new +:+ replace_from old new (String.length old - 1) s'
          else String c (replace_from old new 0 s')
      end
  end.

Definition replace (old new s : string) : string := replace_from old new 0 s.

Definition is_upper (c : ascii) : bool :=
  let n := nat_of_ascii c in (Nat.leb 65 n && Nat.leb n 90)%bool.
Definition is_lower (c : ascii) : bool :=
  let n := nat_of_ascii c in (Nat.leb 97 n && Nat.leb n 122)%bool.
(** Cased characters; characters outside ASCII letters count as uncased. *)
Definition is_cased (c : ascii) : bool := (is_upper c || is_lower c)%bool.

Definition to_upper (c : ascii) : ascii :=
  if is_lower c then ascii_of_nat (nat_of_ascii c - 32) else c.
Definition to_lower (c : ascii) : ascii :=
  if is_upper c then ascii_of_nat (nat_of_ascii c + 32) else c.

(** [s.lower()] *)
Fixpoint lower (s : string) : string :=
  match s with
  | EmptyString => EmptyString
  | String c s' => String (to_lower c) (lower s')
  end.

(** [s.title()]: a cased character is upper-cased when the character before
    it is uncased (or there is none), lower-cased otherwise.  With [lower]
    above this is [str.title] on ASCII text; on other text Python follows
    the Unicode tables, which are not modelled. *)
Fixpoint title_from (prev_cased : bool) (s : string) : string :=
  match s with
  | EmptyString => EmptyString
  | String c s' =>
      String (if prev_cased then to_lower c else to_upper c)
             (title_from (is_cased c) s')
  end.

Definition title (s : string) : string := title_from false s.

(** [os.path.basename(p)] (posixpath): what follows the last slash.
    [acc] is the candidate found so far. *)
Fixpoint basename_from (acc s : string) : string :=
  match s with
  | EmptyString => acc
  | String c s' =>
      if decide (c = "/"%char) then basename_from s' s' else basename_from acc s'
  end.

Definition basename (p : string) : string := basename_from p p.

(** [os.path.join(d, f)] (posixpath), two components. *)
Definition path_join (d f : string) : string :=
  if startswith "/" f then f
  else if (bool_decide (d = "") || endswith "/" d)%bool then d +:+ f
  else d +:+ "/" +:+ f.

(** [sep.join(parts)] with an empty separator, used for sequences of
    [f.write] calls on one file. *)
Definition concat_str (parts : list string) : string :=
  foldr String.append "" parts.

(** *** float: IEEE-754 binary64 *)

Definition prec : Z := 53.
Definition emax : Z := 1024.

Definition float : Type := spec_float.

(** Conversion of an int operand to float, as done by [int + float]:
    correctly rounded, [OverflowError] when the int is out of range. *)
Definition float_of_int (i : Z) : outcome float :=
  match binary_normalize prec emax i 0 false with
  | S754_infinity _ =>
      Raised (Exception "OverflowError" "int too large to convert to float")
  | f => Returned f
  end.

(** [i + x] for an int [i] and a float [x]. *)
Definition int_add_float (i : Z) (x : float) : outcome float :=
  match float_of_int i with
  | Returned f => Returned (SFadd prec emax f x)
  | Raised e => Raised e
  end.

(** [b ** n] for ints with [0 <= n]. *)
Definition int_pow (b n : Z) : Z := b ^ n.

(** The value of a finite float as a rational. *)
Definition Q_of_float (x : float) : Q :=
  match x with
  | S754_finite s m e =>
      let v := if decide (0 <= e) then inject_Z (Z.pos m * 2 ^ e)
               else Qmake (Z.pos m) (Z.to_pos (2 ^ (- e))) in
      if s then Qopp v else v
  | _ => 0%Q
  end.

Definition is_finite (x : float) : bool :=
  match x with
  | S754_zero _ | S754_finite _ _ _ => true
  | _ => false
  end.

End Py.

Import Py.

(** ** The [re] fragment used by the script

    Backtracking matching of a sequence of pattern items against the text at a
    given position, and [re.findall] for a pattern with one capturing
    group. *)
Module Re.

Inductive item : Type :=
| Lit (c : ascii)      (* a literal character, escaped or not *)
| AnyLazy              (* .*?  (the dot does not match a newline) *)
| GroupOpen            (* (  *)
| GroupClose.          (* )  *)

Definition newline : ascii := "010"%char.

(** A successful match at a position: how many characters it spans and
    where, counted from that position, group 1 opens and closes. *)
Record span : Type := { consumed : nat; g_open : nat; g_close : nat }.

Definition shift (r : span) : span :=
  {| consumed := S (consumed r); g_open := S (g_open r); g_close := S (g_close r) |}.

(** [.*?] followed by the continuation [k]: the continuation is tried first
    and one more character is taken only when it fails. *)
Fixpoint lazy_star (k : string → option span) (s : string) : option span :=
  match k s with
  | Some r => Some r
  | None =>
      match s with
      | String c s' => if decide (c = newline) then None else shift <$> lazy_star k s'
      | EmptyString => None
      end
  end.

(** [exec p s]: the match the engine finds for [p] at the start of [s], if
    any. *)
Fixpoint exec (p : list item) (s : string) : option span :=
  match p with
  | [] => Some {| consumed := 0; g_open := 0; g_close := 0 |}
  | Lit c :: p' =>
      match s with
      | String c' s' => if decide (c = c') then shift <$> exec p' s' else None
      | EmptyString => None
      end
  | GroupOpen :: p' =>
      (λ r, {| consumed := consumed r; g_open := 0; g_close := g_close r |}) <$> exec p' s
  | GroupClose :: p' =>
      (λ r, {| consumed := consumed r; g_open := g_open r; g_close := 0 |}) <$> exec p' s
  | AnyLazy :: p' => lazy_star (exec p') s
  end.

(** [s[:n]] *)
Fixpoint take_str (n : nat) (s : string) : string :=
  match n, s with
  | S n', String c s' => String c (take_str n' s')
  | _, _ => EmptyString
  end.

Definition group1 (r : span) (s : string) : string :=
  take_str (g_close r - g_open r) (drop_str (g_open r) s).

(** [re.findall(p, s)] for a pattern with one group that cannot match the
    empty string: the captures of the successive non-overlapping matches,
    scanning left to right.  [skip] counts the characters of the last match
    that remain to be passed over. *)
Fixpoint findall_from (p : list item) (skip : nat) (s : string) : list string :=
  match s with
  | EmptyString => []
  | String _ s' =>
      match skip with
      | S k => findall_from p k s'
      | O =>
          match exec p s with
          | Some r => group1 r s :: findall_from p (consumed r - 1) s'
          | None => findall_from p 0 s'
          end
      end
  end.

Definition findall (p : list item) (s : string) : list string := findall_from p 0 s.

End Re.

(** ** Effects

    What the script does to the outside is recorded as a trace of events, in
    program order.  Records of level WARNING and ERROR are kept; DEBUG and INFO
    records, [print] calls and the progress display are not part of the
    model.  A trace is that of one thread: what a download task does in its
    worker (its requests, sleeps and log records) is in the trace of
    [download_md_file], not in the trace of [main], which holds what the main
    thread does with the outcome of the task. *)
Module Eff.

Inductive level : Type := WARNING | ERROR.

Inductive event : Type :=
| Request (url : string)               (* requests.get(url, ...) is called *)
| Sleep (seconds : float)              (* time.sleep(seconds) *)
| Log (lvl : level) (msg : string)     (* logger.warning / logger.error *)
| MakeDirs (path : string)             (* os.makedirs(path) *)
| Submit (url : string)                (* executor.submit(download_md_file, url) *)
| WriteFile (path content : string)    (* open(path, 'w') and the writes, closed *)
| AppendResult (url content : string)  (* results.append((url, content)) *)
| AppendFailed (url : string).         (* failed_urls.append(url) *)

(** A computation: the events it performed, then how it ended. *)
Definition M (A : Type) : Type := list event * outcome A.

Global Instance M_ret : MRet M := λ A a, ([], Returned a).
Global Instance M_bind : MBind M := λ A B f m,
  match m with
  | (t, Returned a) => let '(t', r) := f a in (t ++ t', r)
  | (t, Raised e) => (t, Raised e)
  end.

Definition emit (ev : event) : M unit := ([ev], Returned ()).
Definition raise {A} (e : exn) : M A := ([], Raised e).
Definition lift {A} (o : outcome A) : M A := ([], o).

(** [try: body / except Exception as e: handler e].  Only the instances of
    [Exception] are caught; [KeyboardInterrupt], [SystemExit] and the like
    leave the statement. *)
Definition try_except {A} (body : M A) (handler : exn → M A) : M A :=
  match body with
  | (t, Raised e) =>
      if is_Exception e then let '(t', r) := handler e in (t ++ t', r)
      else (t, Raised e)
  | done => done
  end.

Definition trace {A} (m : M A) : list event := fst m.
Definition result {A} (m : M A) : outcome A := snd m.

Definition is_request (ev : event) : bool :=
  match ev with Request _ => true | _ => false end.
Definition is_sleep (ev : event) : bool :=
  match ev with Sleep _ => true | _ => false end.
Definition is_submit (ev : event) : bool :=
  match ev with Submit _ => true | _ => false end.
Definition is_write (ev : event) : bool :=
  match ev with WriteFile _ _ => true | _ => false end.

(** The network and timing events of a trace, log records dropped. *)
Definition io_events (t : list event) : list event :=
  List.filter (λ ev, is_request ev || is_sleep ev) t.

(** The two lists [main] accumulates, read back from the appends performed
    so far. *)
Definition results_of (t : list event) : list (string * string) :=
  omap (λ ev, match ev with AppendResult u c => Some (u, c) | _ => None end) t.
Definition failed_of (t : list event) : list string :=
  omap (λ ev, match ev with AppendFailed u => Some u | _ => None end) t.

(** The files a trace leaves behind (later writes replace earlier ones). *)
Definition record_write (fs : gmap string string) (ev : event) : gmap string string :=
  match ev with
  | WriteFile path content => <[path := content]> fs
  | _ => fs
  end.

Definition files_written (t : list event) : gmap string string :=
  foldl record_write ∅ t.

End Eff.

Import Eff.

(** ** [time.sleep]

    CPython 3.11 ([time_sleep] in timemodule.c, [_PyTime_FromDouble] in
    pytime.c): a NaN is refused; the delay is multiplied by [1e9] in binary64
    and rounded to a whole number of nanoseconds, away from zero; a result
    outside [[-2^63, 2^63]] raises [OverflowError]; the result is converted
    to a signed 64-bit integer, where [2^63] wraps to [-2^63]; a negative
    number of nanoseconds raises [ValueError]; otherwise the thread sleeps.
    Rounding to a whole number changes none of the comparisons, so the
    product itself is compared.  The operating system is taken to carry out
    a sleep that passes these checks, without a signal interrupting it. *)

(** [1e9] *)
Definition ns_per_second : float := S754_finite false 8388608000000000 (-23).

(** [(double)_PyTime_MIN], that is [-2^63] *)
Definition time_min : float := S754_finite true (Z.to_pos (2 ^ 52)) 11.

Definition time_sleep (secs : float) : M unit :=
  match secs with
  | S754_nan => raise (Exception "ValueError" "Invalid value NaN (not a number)")
  | _ =>
      let ns := SFmul prec emax secs ns_per_second in
      if negb (SFleb time_min ns && SFleb ns (SFopp time_min)) then
        raise (Exception "OverflowError"
                 "timestamp too large to convert to C _PyTime_t")
      else if (SFltb ns (S754_zero false) || SFeqb ns (SFopp time_min))%bool then
        raise (Exception "ValueError" "sleep length must be non-negative")
      else emit (Sleep secs)
  end.

(** ** The world outside the script *)

(** What [requests.get] does on one call. *)
Inductive response : Type :=
| HttpResponse (status_code : Z) (text : string)
| Timeout                              (* requests.Timeout *)
| ConnectionError                      (* requests.ConnectionError *)
| RequestException (msg : string)      (* any other requests.RequestException *)
| OtherError (e : exn).                (* an exception outside that hierarchy *)

Record world : Type := {
  (** outcome of the [attempt]-th call of [requests.get] on [url] within one
      call of [fetch_url] *)
  net : string → Z → response;
  (** the value [random.uniform(0, 1)] returns after that attempt failed *)
  uniform01 : string → Z → float;
  (** [urllib.parse.urljoin] *)
  urljoin : string → string → outcome string;
  (** [os.path.exists] *)
  path_exists : string → bool;
  (** the exception, if any, that [os.makedirs] raises on a path *)
  makedirs_error : string → option exn;
  (** the exception, if any, that opening and writing a path raises *)
  write_error : string → option exn;
  (** the order in which [as_completed] yields the submitted tasks *)
  as_completed : list string → list string;
  (** [time.strftime('%Y-%m-%d %H:%M:%S')] *)
  strftime : string
}.

(** ** The script *)
Module Scraper.

Definition BASE_URL : string := "https://docs.p2p.org/".
Definition INITIAL_URL : string := "https://docs.p2p.org/llms.txt".
Definition OUTPUT_FILE : string := "p2p_aggregated_docs.md".
Definition MAX_WORKERS : Z := 5.
Definition MAX_RETRIES : Z := 3.
Definition RETRY_DELAY_BASE : Z := 2.

(** Line 82: [RETRY_DELAY_BASE ** attempt + random.uniform(0, 1)]. *)
Definition backoff_delay (attempt : Z) (u : float) : outcome float :=
  int_add_float (int_pow RETRY_DELAY_BASE attempt) u.

(** Lines 61-78, the body of [try] and its handlers in one iteration.
    [Some r] stands for [return r]; [None] for falling through to line 80. *)
Definition attempt_once (w : world) (url : string) (attempt : Z)
  : M (option (option string)) :=
  emit (Request url) ;;
  match net w url attempt with
  | HttpResponse status_code text =>
      if decide (status_code = 200) then mret (Some (Some text))
      else if decide (status_code = 404) then
        emit (Log WARNING ("Resource not found (404): " +:+ url)) ;;
        mret (Some None)
      else
        emit (Log WARNING ("Failed to fetch " +:+ url +:+ ": HTTP "
                             +:+ str_of_int status_code)) ;;
        mret None
  | Timeout =>
      emit (Log WARNING ("Timeout error fetching " +:+ url)) ;; mret None
  | ConnectionError =>
      emit (Log WARNING ("Connection error fetching " +:+ url)) ;; mret None
  | RequestException msg =>
      emit (Log WARNING ("Error fetching " +:+ url +:+ ": " +:+ msg)) ;; mret None
  | OtherError e => raise e
  end.

(** Lines 80-84. *)
Definition backoff (w : world) (url : string) (retries attempt : Z) : M unit :=
  if decide (attempt < retries) then
    delay ← lift (backoff_delay attempt (uniform01 w url attempt));
    time_sleep delay
  else mret ().

(** Lines 60-87: the [for] loop over the remaining attempts, then the
    statements after it. *)
Fixpoint fetch_loop (w : world) (url : string) (retries : Z) (attempts : list Z)
  : M (option string) :=
  match attempts with
  | [] =>
      emit (Log ERROR ("Failed to fetch " +:+ url +:+ " after "
                         +:+ str_of_int (retries + 1) +:+ " attempts")) ;;
      mret None
  | attempt :: rest =>
      r ← attempt_once w url attempt;
      match r with
      | Some returned => mret returned
      | None => backoff w url retries attempt ;; fetch_loop w url retries rest
      end
  end.

Definition fetch_url (w : world) (url : string) (retries : Z) : M (option string) :=
  fetch_loop w url retries (range (retries + 1)).


(** Line 104: the pattern [\[.*?\]\((.*?\.md)\)]. *)
Definition LINK_PATTERN : list Re.item :=
  [Re.Lit "["; Re.AnyLazy; Re.Lit "]"; Re.Lit "(";
   Re.GroupOpen; Re.AnyLazy; Re.Lit "."; Re.Lit "m"; Re.Lit "d"; Re.GroupClose;
   Re.Lit ")"]%char.

(** Truth value of a [str or None]: [None] and the empty string are false. *)
Definition truthy (content : option string) : bool :=
  match content with
  | None | Some EmptyString => false
  | Some _ => true
  end.

(** Lines 110-113, one iteration of the loop over the matches. *)
Definition absolute_url (w : world) (m : string) : outcome string :=
  if (startswith "http://" m || startswith "https://" m)%bool then Returned m
  else urljoin w BASE_URL m.

(** Lines 108-113. *)
Fixpoint add_links (w : world) (matches : list string) (absolute_urls : gset string)
  : outcome (gset string) :=
  match matches with
  | [] => Returned absolute_urls
  | m :: rest =>
      match absolute_url w m with
      | Returned u => add_links w rest ({[ u ]} ∪ absolute_urls)
      | Raised e => Raised e
      end
  end.

Definition extract_md_links (w : world) (text_content : option string)
  : outcome (gset string) :=
  if negb (truthy text_content) then Returned ∅
  else add_links w (Re.findall LINK_PATTERN (default "" text_content)) ∅.

Definition download_md_file (w : world) (url : string) : M (string * option string) :=
  content ← fetch_url w url MAX_RETRIES;
  if truthy content then mret (url, content) else mret (url, None).


(** *** main *)

Definition nl : string := String Re.newline "".

Definition md_files_dir : string := "markdown_files".
Definition FAILED_FILE : string := "failed_urls.txt".

(** [os.makedirs(path)] *)
Definition makedirs (w : world) (path : string) : M unit :=
  match makedirs_error w path with
  | Some e => raise e
  | None => emit (MakeDirs path)
  end.

(** [with open(path, 'w', encoding='utf-8') as f: f.write(...)] *)
Definition write_file (w : world) (path content : string) : M unit :=
  match write_error w path with
  | Some e => raise e
  | None => emit (WriteFile path content)
  end.

(** Lines 176-192 (and, with the same effects, 203-225): what the loop over
    [as_completed] does with the task submitted for [url].  The task ran
    [download_md_file] in a worker; [future.result()] hands over how it
    ended, a result or the exception it raised, and the events of the worker
    stay with the worker.  [except Exception] catches what the task or the
    write raises when it is an instance of [Exception]; anything else leaves
    the loop and [main]. *)
Definition handle_completed (w : world) (url : string) : M unit :=
  try_except
    ('(url, content) ← lift (result (download_md_file w url));
     if truthy content then
       let text := default "" content in
       emit (AppendResult url text) ;;
       write_file w (path_join md_files_dir (basename url)) text
     else
       emit (AppendFailed url) ;;
       emit (Log ERROR ("Failed to download: " +:+ url)))
    (λ exc,
       emit (AppendFailed url) ;;
       emit (Log ERROR ("An error occurred with " +:+ url +:+ ": " +:+ exn_msg exc))).

(** The [for future in as_completed(...)] loop. *)
Fixpoint process_completed (w : world) (order : list string) : M unit :=
  match order with
  | [] => mret ()
  | url :: rest => handle_completed w url ;; process_completed w rest
  end.

(** Lines 247-248 and 255-256. *)
Definition title_of (url : string) : string :=
  title (replace "-" " " (replace ".md" "" (basename url))).

(** Line 249: the anchor after [#]. *)
Definition anchor_of (ttl : string) : string := replace " " "-" (lower ttl).

(** Line 249: one entry of the table of contents. *)
Definition toc_entry (i : Z) (url : string) : string :=
  str_of_int i +:+ ". [" +:+ title_of url +:+ "](#"
    +:+ anchor_of (title_of url) +:+ ")" +:+ nl.

(** Lines 246-249, [enumerate(results, i)]. *)
Fixpoint toc_entries (i : Z) (results : list (string * string)) : string :=
  match results with
  | [] => ""
  | (url, _) :: rest => toc_entry i url +:+ toc_entries (i + 1) rest
  end.

(** Lines 258-261: the section of one record. *)
Definition section (url content : string) : string :=
  "## " +:+ title_of url +:+ nl +:+ nl
    +:+ "*Source: [" +:+ url +:+ "](" +:+ url +:+ ")*" +:+ nl +:+ nl
    +:+ content
    +:+ nl +:+ nl +:+ "---" +:+ nl +:+ nl.

(** Lines 254-261. *)
Fixpoint sections (results : list (string * string)) : string :=
  match results with
  | [] => ""
  | (url, content) :: rest => section url content +:+ sections rest
  end.

(** Lines 240-261: everything written to [OUTPUT_FILE]. *)
Definition aggregate_document (results : list (string * string)) (now : string) : string :=
  "# P2P.org Aggregated Documentation" +:+ nl +:+ nl
  +:+ "*This file contains aggregated documentation from "
  +:+ str_of_int (Z.of_nat (length results)) +:+ " markdown files.*" +:+ nl +:+ nl
  +:+ "*Generated on: " +:+ now +:+ "*" +:+ nl +:+ nl
  +:+ "## Table of Contents" +:+ nl +:+ nl
  +:+ toc_entries 1 results
  +:+ nl +:+ "---" +:+ nl +:+ nl
  +:+ sections results.

(** Lines 264-267: the text of the manifest. *)
Definition manifest (failed_urls : list string) : string :=
  concat_str ((λ url, url +:+ nl) <$> failed_urls).

(** Lines 229-268, given the trace of the download loop. *)
Definition finish (w : world) (downloads : list event) : M unit :=
  let results := results_of downloads in
  let failed_urls := failed_of downloads in
  let failure_count := Z.of_nat (length failed_urls) in
  (if decide (failure_count > 0) then
     emit (Log WARNING ("Failed to download " +:+ str_of_int failure_count +:+ " files"))
   else mret ()) ;;
  write_file w OUTPUT_FILE (aggregate_document results (strftime w)) ;;
  match failed_urls with
  | [] => mret ()
  | _ :: _ => write_file w FAILED_FILE (manifest failed_urls)
  end.

(** Lines 156-268: the run once the links are known.  [os.makedirs] may
    raise, which ends the run before any task is submitted.  The requests,
    sleeps and log records of the tasks happen in the workers and are not
    part of this trace. *)
Definition download_and_aggregate (w : world) (md_links : gset string) : M unit :=
  (if path_exists w md_files_dir then mret () else makedirs w md_files_dir) ;;
  let submitted := elements md_links in
  mapM (λ url, emit (Submit url)) submitted ;;
  let downloads := process_completed w (as_completed w submitted) in
  downloads ;;
  finish w (trace downloads).

(** Lines 144-268: the run once the seed fetch has returned. *)
Definition main_from_seed (w : world) (main_content : option string) : M unit :=
  if negb (truthy main_content) then
    emit (Log ERROR "Failed to fetch the main file. Exiting.")
  else
    md_links ← lift (extract_md_links w main_content);
    if decide (md_links = ∅) then
      emit (Log WARNING "No markdown links found. Exiting.")
    else download_and_aggregate w md_links.

Definition main (w : world) : M unit :=
  main_content ← fetch_url w INITIAL_URL MAX_RETRIES;
  main_from_seed w main_content.


(** Lines 282-290: the entry point.  [KeyboardInterrupt] is reported with a
    warning, an instance of [Exception] with [logger.exception], which logs
    at level ERROR; anything else leaves the script. *)
Definition script (w : world) : M unit :=
  match main w with
  | (t, Raised KeyboardInterrupt) =>
      (t ++ [Log WARNING "Process interrupted by user"], Returned ())
  | (t, Raised (Exception kind msg)) =>
      (t ++ [Log ERROR ("An unexpected error occurred: " +:+ msg)], Returned ())
  | done => done
  end.

End Scraper.
Import Scraper.

(** ** Specification vocabulary *)

(** *** fetch_url *)

(** A failed attempt that [fetch_url] retries: a timeout, a connection
    failure, another request exception, or a status other than 200 and 404. *)
Definition retryable (r : response) : Prop :=
  match r with
  | HttpResponse status_code _ => status_code ≠ 200 ∧ status_code ≠ 404
  | Timeout | ConnectionError | RequestException _ => True
  | OtherError _ => False
  end.

(** Requests to [url] with one sleep between consecutive requests. *)
Fixpoint alternating (url : string) (delays : list float) : list event :=
  match delays with
  | [] => [Request url]
  | d :: ds => Request url :: Sleep d :: alternating url ds
  end.

(** Events of [fetch_url]: requests, sleeps and log records. *)
Definition net_event (ev : event) : bool :=
  match ev with
  | Request _ | Sleep _ | Log _ _ => true
  | _ => false
  end.

(** *** Binary64 values *)

(** 1.0 *)
Definition float_one : float := S754_finite false (Z.to_pos (2 ^ 52)) (-52).

(** A value [random.uniform(0, 1)] can return: a binary64 number [u] with
    [0 <= u < 1]. *)
Definition in_unit_interval (u : float) : Prop :=
  valid_binary prec emax u = true
  ∧ SFleb (S754_zero false) u = true
  ∧ SFltb u float_one = true.

(** The largest float below 1, [1 - 2 ** -53]; [random.random()] can return
    it. *)
Definition below_one : float := S754_finite false (Z.to_pos (2 ^ 53 - 1)) (-53).

(** The float of mantissa [m] and exponent [e], or infinity when [e] is out
    of range. *)
Definition finite_or_inf (m e : Z) : float :=
  if e <=? emax - prec then S754_finite false (Z.to_pos m) e else S754_infinity false.

(** [2 ** a] converts to the float of mantissa [2^52] and exponent
    [a - 52]. *)
Definition pow2_converts (a : Z) : bool :=
  match float_of_int (int_pow 2 a) with
  | Returned (S754_finite false m e) =>
      bool_decide (Z.pos m = 2 ^ 52 ∧ e = a - 52)
  | _ => false
  end.


Definition delay_in_closed (a : Z) (u : float) : Prop :=
  ∃ d, backoff_delay a u = Returned d
       ∧ is_finite d = true
       ∧ (inject_Z (2 ^ a) <= Q_of_float d)%Q
       ∧ (Q_of_float d <= inject_Z (2 ^ a + 1))%Q.

(** *** Text *)

(** [sub in s] *)
Definition contains (sub s : string) : Prop :=
  ∃ before after, s = before +:+ sub +:+ after.

(** [target] occurs in [text] as the target of an inline link
    [[label](target)]. *)
Definition link_target_in (text target : string) : Prop :=
  ∃ before label after,
    text = before +:+ "[" +:+ label +:+ "](" +:+ target +:+ ")" +:+ after.

(** *** The download loop *)

(** The URLs of the success records. *)
Definition succeeded_urls (t : list event) : list string := (results_of t).*1.

(** What a trace writes to [path], in order. *)
Definition writes_to (path : string) (t : list event) : list string :=
  omap (λ ev, match ev with
              | WriteFile p c => if decide (p = path) then Some c else None
              | _ => None
              end) t.

(** [as_completed] yields every submitted task once. *)
Definition fair_completion (w : world) : Prop :=
  ∀ submitted, as_completed w submitted ≡ₚ submitted.

(** The ways in which the loop body can handle a completed task, each with
    its events and the way it ends: the body returns, or an exception that
    is not an instance of [Exception] leaves it, and the loop with it. *)
Inductive handled (w : world) (url : string) : list event → outcome unit → Prop :=
| handled_success text :
    result (download_md_file w url) = Returned (url, Some text) →
    write_error w (path_join md_files_dir (basename url)) = None →
    handled w url [AppendResult url text;
                   WriteFile (path_join md_files_dir (basename url)) text]
                  (Returned ())
| handled_write_error text e :
    result (download_md_file w url) = Returned (url, Some text) →
    write_error w (path_join md_files_dir (basename url)) = Some e →
    is_Exception e = true →
    handled w url [AppendResult url text; AppendFailed url;
                   Log ERROR ("An error occurred with " +:+ url +:+ ": " +:+ exn_msg e)]
                  (Returned ())
| handled_write_escape text e :
    result (download_md_file w url) = Returned (url, Some text) →
    write_error w (path_join md_files_dir (basename url)) = Some e →
    is_Exception e = false →
    handled w url [AppendResult url text] (Raised e)
| handled_no_content :
    result (download_md_file w url) = Returned (url, None) →
    handled w url [AppendFailed url; Log ERROR ("Failed to download: " +:+ url)]
                  (Returned ())
| handled_task_error e :
    result (download_md_file w url) = Raised e →
    is_Exception e = true →
    handled w url [AppendFailed url;
                   Log ERROR ("An error occurred with " +:+ url +:+ ": " +:+ exn_msg e)]
                  (Returned ())
| handled_task_escape e :
    result (download_md_file w url) = Raised e →
    is_Exception e = false →
    handled w url [] (Raised e).

(** Whatever the task for [url] and the write of its individual file raise
    is an instance of [Exception], so that the loop body catches it. *)
Definition contained (w : world) (url : string) : Prop :=
  (∀ e, result (download_md_file w url) = Raised e → is_Exception e = true)
  ∧ (∀ e, write_error w (path_join md_files_dir (basename url)) = Some e →
          is_Exception e = true).


(** *** Further vocabulary *)

(** How a response that [fetch_url] does not retry ends the call: a 200
    returns the body, a 404 returns [None], an exception outside the
    [requests] hierarchy propagates. *)
Definition decides (r : response) : option (outcome (option string)) :=
  match r with
  | HttpResponse status_code text =>
      if decide (status_code = 200) then Some (Returned (Some text))
      else if decide (status_code = 404) then Some (Returned None)
      else None
  | OtherError e => Some (Raised e)
  | Timeout | ConnectionError | RequestException _ => None
  end.

(** The delays a trace sleeps, in order, and their sum in seconds. *)
Definition sleeps_of (t : list event) : list float :=
  omap (λ ev, match ev with Sleep d => Some d | _ => None end) t.

Definition total_seconds (delays : list float) : Q :=
  foldr (λ d acc, (Q_of_float d + acc)%Q) 0%Q delays.

(** [c in s] *)
Fixpoint occurs (c : ascii) (s : string) : bool :=
  match s with
  | EmptyString => false
  | String c' s' => if decide (c = c') then true else occurs c s'
  end.

(** The end of the link pattern, from the dot of [\.md] on. *)
Definition LINK_TAIL : list Re.item :=
  [Re.Lit "."; Re.Lit "m"; Re.Lit "d"; Re.GroupClose; Re.Lit ")"]%char.

(** What the task for [url] hands to the loop of [main]: the body it
    downloaded, if any. *)
Definition content_of (w : world) (url : string) : option string :=
  match result (download_md_file w url) with
  | Returned (_, content) => content
  | Raised _ => None
  end.

(** Lines 183-184: the path of the individual file of [url]. *)
Definition individual_path (url : string) : string :=
  path_join md_files_dir (basename url).

Definition write_fails (w : world) (url : string) : bool :=
  match write_error w (individual_path url) with Some _ => true | None => false end.

(** Whether the loop appends [url] to [failed_urls]. *)
Definition listed_as_failed (w : world) (url : string) : bool :=
  match content_of w url with
  | None => true
  | Some _ => write_fails w url
  end.

(** The individual file the loop writes for [url], if any. *)
Definition individual_write (w : world) (url : string) : option event :=
  match content_of w url with
  | Some text => if write_fails w url then None
                 else Some (WriteFile (individual_path url) text)
  | None => None
  end.

(** The directory of the individual files exists or can be made. *)
Definition directory_ready (w : world) : Prop :=
  path_exists w md_files_dir = true ∨ makedirs_error w md_files_dir = None.

(** ASCII characters: on text made of them [title] and [lower] are
    [str.title] and [str.lower]. *)
Definition is_ascii (c : ascii) : bool := Nat.ltb (nat_of_ascii c) 128.

(** File stems for which the anchor gives the stem back: lowercase letters,
    digits and hyphens. *)
Definition is_digit (c : ascii) : bool :=
  let n := nat_of_ascii c in (Nat.leb 48 n && Nat.leb n 57)%bool.

Definition slug_char (c : ascii) : bool :=
  (is_lower c || is_digit c || bool_decide (c = "-"%char))%bool.

Fixpoint all_chars (p : ascii → bool) (s : string) : bool :=
  match s with
  | EmptyString => true
  | String c s' => (p c && all_chars p s')%bool
  end.

(** [s] with every [a] turned into [b]. *)
Fixpoint map_char (a b : ascii) (s : string) : string :=
  match s with
  | EmptyString => EmptyString
  | String c s' => String (if decide (c = a) then b else c) (map_char a b s')
  end.

(** *** Worlds used in examples *)

(** The seed text of the example in the specification. *)
Definition sample_seed : string :=
  "[A](a.md) and [B](https://x/b.md) and again [A2](a.md)".

(** Every attempt on every URL times out. *)
Definition always_timeout : world :=
  {| net := λ _ _, Timeout;
     uniform01 := λ _ _, S754_zero false;
     urljoin := λ base u, Returned (base +:+ u);
     path_exists := λ _, false;
     makedirs_error := λ _, None;
     write_error := λ _, None;
     as_completed := λ l, l;
     strftime := "2024-01-01 00:00:00" |}.

(** Every request is answered 404. *)
Definition always_not_found : world :=
  {| net := λ _ _, HttpResponse 404 "Not Found";
     uniform01 := λ _ _, S754_zero false;
     urljoin := λ base u, Returned (base +:+ u);
     path_exists := λ _, false;
     makedirs_error := λ _, None;
     write_error := λ _, None;
     as_completed := λ l, l;
     strftime := "2024-01-01 00:00:00" |}.

(** Every request is answered 200 with an empty body. *)
Definition empty_bodies : world :=
  {| net := λ _ _, HttpResponse 200 "";
     uniform01 := λ _ _, S754_zero false;
     urljoin := λ base u, Returned (base +:+ u);
     path_exists := λ _, false;
     makedirs_error := λ _, None;
     write_error := λ _, None;
     as_completed := λ l, l;
     strftime := "2024-01-01 00:00:00" |}.

(** The first attempt on every URL times out, the second is answered 200. *)
Definition flaky_once : world :=
  {| net := λ _ attempt, if decide (attempt = 0) then Timeout
                         else HttpResponse 200 "hello";
     uniform01 := λ _ _, below_one;
     urljoin := λ base u, Returned (base +:+ u);
     path_exists := λ _, false;
     makedirs_error := λ _, None;
     write_error := λ _, None;
     as_completed := λ l, l;
     strftime := "2024-01-01 00:00:00" |}.

(** One page to download whose individual file cannot be written: the seed
    lists [https://docs.p2p.org/guide.md], the page is served with body
    [hello], and writing [markdown_files/guide.md] raises [OSError]. *)
Definition disk_full : world :=
  {| net := λ url _,
       if decide (url = INITIAL_URL)
       then HttpResponse 200 "[Guide](https://docs.p2p.org/guide.md)"
       else HttpResponse 200 "hello";
     uniform01 := λ _ _, S754_zero false;
     urljoin := λ base u, Returned (base +:+ u);
     path_exists := λ _, true;
     makedirs_error := λ _, None;
     write_error := λ path,
       if decide (path = "markdown_files/guide.md")
       then Some (Exception "OSError" "[Errno 28] No space left on device")
       else None;
     as_completed := λ l, l;
     strftime := "2024-01-01 00:00:00" |}.

(** Two pages, one served and one missing; every write succeeds and the
    tasks complete in reverse order of submission. *)
Definition one_missing : world :=
  {| net := λ url _,
       if decide (url = INITIAL_URL)
       then HttpResponse 200 "[Guide](guide.md) and [Old](https://docs.p2p.org/old.md)"
       else if decide (url = "https://docs.p2p.org/guide.md")
       then HttpResponse 200 "hello"
       else HttpResponse 404 "";
     uniform01 := λ _ _, S754_zero false;
     urljoin := λ base u, Returned (base +:+ u);
     path_exists := λ _, false;
     makedirs_error := λ _, None;
     write_error := λ _, None;
     as_completed := reverse;
     strftime := "2024-01-01 00:00:00" |}.

(** The world [one_missing] with a read-only aggregate document. *)
Definition aggregate_unwritable : world :=
  {| net := net one_missing;
     uniform01 := uniform01 one_missing;
     urljoin := urljoin one_missing;
     path_exists := path_exists one_missing;
     makedirs_error := makedirs_error one_missing;
     write_error := λ path,
       if decide (path = OUTPUT_FILE)
       then Some (Exception "PermissionError" "[Errno 13] Permission denied")
       else None;
     as_completed := as_completed one_missing;
     strftime := strftime one_missing |}.

(** The seed lists two pages and both are gone; the tasks complete in
    reverse order of submission. *)
Definition all_missing : world :=
  {| net := λ url _,
       if decide (url = INITIAL_URL)
       then HttpResponse 200 "[Guide](guide.md) and [Old](https://docs.p2p.org/old.md)"
       else HttpResponse 404 "";
     uniform01 := λ _ _, S754_zero false;
     urljoin := λ base u, Returned (base +:+ u);
     path_exists := λ _, false;
     makedirs_error := λ _, None;
     write_error := λ _, None;
     as_completed := reverse;
     strftime := "2024-01-01 00:00:00" |}.


(** The first attempt on every URL times out, the second is answered 200
    with an empty body. *)
Definition empty_after_retry : world :=
  {| net := λ _ attempt, if decide (attempt = 0) then Timeout
                         else HttpResponse 200 "";
     uniform01 := λ _ _, below_one;
     urljoin := λ base u, Returned (base +:+ u);
     path_exists := λ _, false;
     makedirs_error := λ _, None;
     write_error := λ _, None;
     as_completed := λ l, l;
     strftime := "2024-01-01 00:00:00" |}.

(** The seed lists one page, [api/foo-bar.md], served with the body
    [hello]. *)
Definition foo_bar_site : world :=
  {| net := λ url _,
       if decide (url = INITIAL_URL)
       then HttpResponse 200 "[Foo](api/foo-bar.md)"
       else HttpResponse 200 "hello";
     uniform01 := λ _ _, S754_zero false;
     urljoin := λ base u, Returned (base +:+ u);
     path_exists := λ _, false;
     makedirs_error := λ _, None;
     write_error := λ _, None;
     as_completed := λ l, l;
     strftime := "2024-01-01 00:00:00" |}.

(** * Theorems *)

(** ** The embedding on concrete inputs *)

Example title_of_sample :
  title_of "https://docs.p2p.org/api/foo-bar.md" = "Foo Bar"
  ∧ title "x-y.md" = "X-Y.Md"
  ∧ replace ".md" "" "a.mdx.md" = "ax"
  ∧ anchor_of "Foo Bar" = "foo-bar".
Proof. by vm_compute. Qed.

Example basename_sample :
  basename "https://x/a.md?b=/c.md" = "c.md"
  ∧ basename "https://x/" = ""
  ∧ path_join md_files_dir (basename "https://x/y/guide.md") = "markdown_files/guide.md".
Proof. by vm_compute. Qed.

(** Lazy matching backtracks over [.md] inside a target, does not cross a
    newline, and lets a target contain parentheses. *)
Example findall_sample :
  Re.findall LINK_PATTERN
    ("[x](y.md.md) [q]" +:+ nl +:+ "(z.md) [[a](b)(c.md) [d](e.txt)")
  = ["y.md.md"; "b)(c.md"].
Proof. by vm_compute. Qed.

Example float_sample :
  int_add_float 1 below_one = Returned (S754_finite false (Z.to_pos (2 ^ 52)) (-51))
  ∧ int_add_float (2 ^ 52) (S754_finite false (Z.to_pos (3 * 2 ^ 51)) (-53))
    = Returned (S754_finite false (Z.to_pos (2 ^ 52 + 1)) 0)
  ∧ float_of_int (2 ^ 1024)
    = Raised (Exception "OverflowError" "int too large to convert to float").
Proof. by vm_compute. Qed.

(** A URL that fails once and then succeeds is requested twice, with one
    sleep in between, and the body is returned. *)
Example fetch_url_second_attempt :
  fetch_url flaky_once "https://docs.p2p.org/a.md" MAX_RETRIES
  = ([Request "https://docs.p2p.org/a.md";
      Log WARNING "Timeout error fetching https://docs.p2p.org/a.md";
      Sleep (S754_finite false (Z.to_pos (2 ^ 52)) (-51));
      Request "https://docs.p2p.org/a.md"],
     Returned (Some "hello")).
Proof. by vm_compute. Qed.

(** A complete run: the page that is served is aggregated and saved, the
    missing one is listed in the manifest. *)
Example main_sample :
  results_of (trace (main one_missing)) = [("https://docs.p2p.org/guide.md", "hello")]
  ∧ failed_of (trace (main one_missing)) = ["https://docs.p2p.org/old.md"]
  ∧ files_written (trace (main one_missing)) !! "markdown_files/guide.md" = Some "hello"
  ∧ files_written (trace (main one_missing)) !! OUTPUT_FILE
    = Some (aggregate_document [("https://docs.p2p.org/guide.md", "hello")]
              "2024-01-01 00:00:00")
  ∧ files_written (trace (main one_missing)) !! FAILED_FILE
    = Some ("https://docs.p2p.org/old.md" +:+ nl).
Proof. by vm_compute. Qed.

(** ** The effect monad *)

Lemma trace_bind {A B} (m : M A) (f : A → M B) :
  trace (m ≫= f) =
  match result m with
  | Returned a => trace m ++ trace (f a)
  | Raised _ => trace m
  end.
Proof.
  destruct m as [t [a|e]]; simpl; [|done].
  unfold mbind, M_bind. by destruct (f a).
Qed.

Lemma result_bind {A B} (m : M A) (f : A → M B) :
  result (m ≫= f) =
  match result m with
  | Returned a => result (f a)
  | Raised e => Raised e
  end.
Proof.
  destruct m as [t [a|e]]; simpl; [|done].
  unfold mbind, M_bind. by destruct (f a).
Qed.

Lemma trace_emit (ev : event) : trace (emit ev) = [ev].
Proof. done. Qed.

Lemma result_emit (ev : event) : result (emit ev) = Returned ().
Proof. done. Qed.

Lemma M_eta {A} (m : M A) : m = (trace m, result m).
Proof. by destruct m. Qed.

Lemma bind_returned {A B} (m : M A) (f : A → M B) t a :
  m = (t, Returned a) → m ≫= f = (t ++ trace (f a), result (f a)).
Proof. intros ->. unfold mbind, M_bind. by destruct (f a). Qed.

Lemma bind_raised {A B} (m : M A) (f : A → M B) t e :
  m = (t, Raised e) → m ≫= f = (t, Raised e).
Proof. by intros ->. Qed.

(** ** Binary64 addition of a power of two and a number below one *)

Lemma iter_pos_shift {A} (f : A → A) (p : positive) (x : A) :
  SpecFloat.iter_pos f p (f x) = f (SpecFloat.iter_pos f p x).
Proof.
  revert x. induction p as [p IH|p IH|]; intros x; simpl; [|by rewrite !IH|done].
  by rewrite !IH.
Qed.

Lemma iter_pos_nat {A} (f : A → A) (p : positive) (x : A) :
  SpecFloat.iter_pos f p x = Nat.iter (Pos.to_nat p) f x.
Proof.
  revert x. induction p as [p IH|p IH|]; intros x; cbn [SpecFloat.iter_pos].
  - rewrite Pos2Nat.inj_xI.
    replace (S (2 * Pos.to_nat p)) with (S (Pos.to_nat p + Pos.to_nat p)) by lia.
    rewrite Nat.iter_succ, Nat.iter_add, <- !IH.
    by rewrite !iter_pos_shift.
  - rewrite Pos2Nat.inj_xO.
    replace (2 * Pos.to_nat p)%nat with (Pos.to_nat p + Pos.to_nat p)%nat by lia.
    by rewrite Nat.iter_add, <- !IH.
  - done.
Qed.

Lemma shr_1_m mrs : 0 ≤ shr_m mrs → shr_m (shr_1 mrs) = shr_m mrs / 2.
Proof.
  destruct mrs as [m r s]. simpl. intros Hm.
  destruct m as [|[p|p|]|p]; simpl; try done; try lia.
  - rewrite Pos2Z.inj_xI. apply Z.div_unique with 1; lia.
  - rewrite Pos2Z.inj_xO. apply Z.div_unique with 0; lia.
Qed.

Lemma shr_1_r mrs : shr_r (shr_1 mrs) = Z.odd (shr_m mrs).
Proof. destruct mrs as [m r s]. simpl. by destruct m as [|[p|p|]|[p|p|]]. Qed.

Lemma shr_iter_m (k : nat) mrs :
  0 ≤ shr_m mrs → shr_m (Nat.iter k shr_1 mrs) = shr_m mrs / 2 ^ Z.of_nat k.
Proof.
  intros Hm. induction k as [|k IH].
  - simpl. by rewrite Z.div_1_r.
  - rewrite Nat2Z.inj_succ, Z.pow_succ_r by lia. simpl.
    rewrite shr_1_m, IH.
    + rewrite Z.div_div by lia. f_equal. lia.
    + rewrite IH. apply Z.div_pos; lia.
Qed.

Lemma shr_iter_r (k : nat) mrs :
  0 ≤ shr_m mrs →
  shr_r (Nat.iter (S k) shr_1 mrs) = Z.odd (shr_m mrs / 2 ^ Z.of_nat k).
Proof. intros Hm. simpl. by rewrite shr_1_r, shr_iter_m. Qed.

(** Shifting right by [n >= 1] places. *)
Lemma shr_spec (m e n : Z) :
  0 ≤ m → 1 ≤ n →
  ∃ mrs, shr {| shr_m := m; shr_r := false; shr_s := false |} e n = (mrs, e + n)
         ∧ shr_m mrs = m / 2 ^ n
         ∧ shr_r mrs = Z.odd (m / 2 ^ (n - 1)).
Proof.
  intros Hm Hn. destruct n as [|p|p]; try lia.
  unfold shr. eexists; split; [reflexivity|].
  rewrite iter_pos_nat.
  destruct (Pos.to_nat p) as [|k] eqn:Hk; [lia|].
  rewrite shr_iter_r by done. rewrite shr_iter_m by done. simpl shr_m.
  replace (Z.of_nat (S k)) with (Z.pos p) by lia.
  replace (Z.of_nat k) with (Z.pos p - 1) by lia. done.
Qed.

Lemma digits2_pos_size p : digits2_pos p = Pos.size p.
Proof. induction p; simpl; by f_equal. Qed.

Lemma digits2_pos_bounds (p : positive) (d : Z) :
  2 ^ (d - 1) ≤ Z.pos p < 2 ^ d → 1 ≤ d → Z.pos (digits2_pos p) = d.
Proof.
  intros [Hlo Hhi] Hd. rewrite digits2_pos_size.
  pose proof (Pos.size_gt p) as Hgt. pose proof (Pos.size_le p) as Hle.
  apply Pos2Z.pos_lt_pos in Hgt. apply Pos2Z.pos_le_pos in Hle.
  rewrite Pos2Z.inj_pow in Hgt, Hle. rewrite (Pos2Z.inj_xO p) in Hle.
  assert (Hpos : 1 ≤ Z.pos (Pos.size p)) by lia.
  generalize dependent (Z.pos (Pos.size p)). intros k Hgt Hle Hpos.
  assert (Hk : 2 ^ k = 2 * 2 ^ (k - 1))
    by (rewrite <- Z.pow_succ_r by lia; f_equal; lia).
  destruct (Z.lt_trichotomy k d) as [Hlt|[->|Hlt]]; [|done|].
  - assert (2 ^ k ≤ 2 ^ (d - 1)) by (apply Z.pow_le_mono_r; lia).
    lia.
  - assert (2 ^ d ≤ 2 ^ (k - 1)) by (apply Z.pow_le_mono_r; lia).
    lia.
Qed.

Lemma shl_pos (m d : positive) : Z.pos (Pos.iter xO m d) = Z.pos m * 2 ^ Z.pos d.
Proof.
  rewrite <- Z.shiftl_mul_pow2 by lia. simpl.
  apply (Pos.iter_swap_gen _ _ Z.pos xO (Z.mul 2)). done.
Qed.

Lemma fexp_normal (x : Z) : -1074 ≤ x - 53 → fexp prec emax x = x - 53.
Proof. unfold fexp, emin, prec, emax. lia. Qed.

Lemma round_nearest_even_range mrs :
  let q' := round_nearest_even (shr_m mrs) (loc_of_shr_record mrs) in
  shr_m mrs ≤ q' ≤ shr_m mrs + 1 ∧ (q' = shr_m mrs + 1 → shr_r mrs = true).
Proof.
  destruct mrs as [m [] []]; simpl; try (split; [lia|try done; intros; lia]).
  destruct (Z.even m); split; try lia; done.
Qed.

Lemma shr_fexp_exact_53 (q e : Z) :
  2 ^ 52 ≤ q < 2 ^ 53 → -1074 ≤ e →
  shr_fexp prec emax q e loc_Exact = ({| shr_m := q; shr_r := false; shr_s := false |}, e).
Proof.
  intros Hq He. unfold shr_fexp.
  destruct q as [|p|p]; try lia. simpl Zdigits2.
  rewrite (digits2_pos_bounds p 53); [|done|lia].
  rewrite fexp_normal by lia.
  replace (53 + e - 53 - e) with 0 by lia. done.
Qed.

Lemma shr_fexp_exact_54 (e : Z) :
  -1074 ≤ e →
  ∃ mrs, shr_fexp prec emax (2 ^ 53) e loc_Exact = (mrs, e + 1) ∧ shr_m mrs = 2 ^ 52.
Proof.
  intros He. unfold shr_fexp.
  change (Zdigits2 (2 ^ 53)) with 54.
  rewrite fexp_normal by lia.
  replace (54 + e - 53 - e) with 1 by lia. simpl. eauto.
Qed.

Lemma binary_round_aux_shift (M : positive) (e n : Z) :
  1 ≤ n → 2 ^ (52 + n) ≤ Z.pos M < 2 ^ (53 + n) → -1074 ≤ e + n →
  ∃ q', Z.pos M / 2 ^ n ≤ q' ≤ Z.pos M / 2 ^ n + 1
        ∧ (q' = Z.pos M / 2 ^ n + 1 → Z.odd (Z.pos M / 2 ^ (n - 1)) = true)
        ∧ binary_round_aux prec emax false (Z.pos M) e loc_Exact
          = if decide (q' < 2 ^ 53) then finite_or_inf q' (e + n)
            else finite_or_inf (2 ^ 52) (e + n + 1).
Proof.
  intros Hn HM He.
  assert (Hq : 2 ^ 52 ≤ Z.pos M / 2 ^ n < 2 ^ 53).
  { assert (0 < 2 ^ n) by (apply Z.pow_pos_nonneg; lia).
    rewrite !Z.pow_add_r in HM by lia. split.
    - apply Z.div_le_lower_bound; lia.
    - apply Z.div_lt_upper_bound; lia. }
  unfold binary_round_aux.
  assert (Hsh : shr_fexp prec emax (Z.pos M) e loc_Exact
                = shr {| shr_m := Z.pos M; shr_r := false; shr_s := false |} e n).
  { unfold shr_fexp. simpl Zdigits2.
    rewrite (digits2_pos_bounds M (53 + n)); [|by replace (53 + n - 1) with (52 + n) by lia|lia].
    rewrite fexp_normal by lia. simpl shr_record_of_loc. f_equal. lia. }
  rewrite Hsh.
  destruct (shr_spec (Z.pos M) e n) as (mrs & -> & Hm & Hr); [lia..|].
  destruct (round_nearest_even_range mrs) as [Hrange Hup].
  set (q' := round_nearest_even (shr_m mrs) (loc_of_shr_record mrs)) in *.
  rewrite Hm in Hrange, Hup. rewrite Hr in Hup.
  exists q'. split; [done|]. split; [done|].
  case_decide as Hlt.
  - rewrite shr_fexp_exact_53 by lia. simpl shr_m.
    destruct q' as [|p|p] eqn:Hq'; try lia.
    unfold finite_or_inf. simpl. done.
  - assert (q' = 2 ^ 53) as -> by lia.
    destruct (shr_fexp_exact_54 (e + n)) as (mrs' & -> & Hm'); [lia|].
    rewrite Hm'. unfold finite_or_inf. done.
Qed.

Lemma binary_round_shift (M : positive) (e n : Z) :
  1 ≤ n → 2 ^ (52 + n) ≤ Z.pos M < 2 ^ (53 + n) → -1074 ≤ e + n →
  binary_round prec emax false M e
  = binary_round_aux prec emax false (Z.pos M) e loc_Exact.
Proof.
  intros Hn HM He. unfold binary_round.
  rewrite (digits2_pos_bounds M (53 + n)); [|by replace (53 + n - 1) with (52 + n) by lia|lia].
  rewrite fexp_normal by lia. unfold shl_align.
  replace (53 + n + e - 53 - e) with n by lia.
  destruct n; try lia; done.
Qed.

Lemma digits2_pos_spec (p : positive) :
  2 ^ (Z.pos (digits2_pos p) - 1) ≤ Z.pos p < 2 ^ Z.pos (digits2_pos p).
Proof.
  rewrite digits2_pos_size.
  pose proof (Pos.size_gt p) as Hgt. pose proof (Pos.size_le p) as Hle.
  apply Pos2Z.pos_lt_pos in Hgt. apply Pos2Z.pos_le_pos in Hle.
  rewrite Pos2Z.inj_pow in Hgt, Hle. rewrite (Pos2Z.inj_xO p) in Hle.
  assert (Hk : 2 ^ Z.pos (Pos.size p) = 2 * 2 ^ (Z.pos (Pos.size p) - 1))
    by (rewrite <- Z.pow_succ_r by lia; f_equal; lia).
  lia.
Qed.

Lemma in_unit_interval_inv (u : spec_float) :
  in_unit_interval u →
  (∃ s, u = S754_zero s)
  ∨ (∃ m e, u = S754_finite false m e ∧ Z.pos m < 2 ^ 53 ∧ -1074 ≤ e ≤ -53).
Proof.
  intros (Hvalid & Hle & Hlt).
  destruct u as [s|s| |s m e]; [by eauto|by destruct s|done|].
  right. destruct s; [done|]. exists m, e. split; [done|].
  unfold valid_binary, bounded, canonical_mantissa in Hvalid.
  apply andb_prop in Hvalid as [Hcanon _]. apply Z.eqb_eq in Hcanon.
  unfold fexp, emin, prec, emax in Hcanon.
  pose proof (digits2_pos_spec m) as [Hlo Hhi].
  unfold SFltb, SFcompare, float_one in Hlt.
  destruct (Z.compare_spec e (-52)) as [->|He|He]; [| |done].
  - exfalso. assert (Hd : Z.pos (digits2_pos m) = 53) by lia.
    rewrite Hd in Hlo. simpl in Hlo.
    change (Pos.compare_cont Eq m (Z.to_pos (2 ^ 52)))
      with (Pos.compare m (Z.to_pos (2 ^ 52))) in Hlt.
    destruct (Pos.compare_spec m (Z.to_pos (2 ^ 52))) as [?|Hc|?]; try done.
    apply Pos2Z.pos_lt_pos in Hc. rewrite Z2Pos.id in Hc by done. lia.
  - assert (Hd : Z.pos (digits2_pos m) ≤ 53) by lia.
    split; [|lia].
    assert (2 ^ Z.pos (digits2_pos m) ≤ 2 ^ 53) by (apply Z.pow_le_mono_r; lia).
    lia.
Qed.

Lemma SFadd_pow2_unit (a : Z) (m : positive) (e : Z) :
  0 ≤ a ≤ 1023 → Z.pos m < 2 ^ 53 → -1074 ≤ e ≤ -53 →
  let n := a - 52 - e in
  let M := 2 ^ (a - e) + Z.pos m in
  ∃ q', M / 2 ^ n ≤ q' ≤ M / 2 ^ n + 1
        ∧ (q' = M / 2 ^ n + 1 → Z.odd (M / 2 ^ (n - 1)) = true)
        ∧ SFadd prec emax (S754_finite false (Z.to_pos (2 ^ 52)) (a - 52))
                          (S754_finite false m e)
          = if decide (q' < 2 ^ 53) then finite_or_inf q' (a - 52)
            else finite_or_inf (2 ^ 52) (a - 51).
Proof.
  intros Ha Hm He n M.
  assert (Hn : 1 ≤ n) by (unfold n; lia).
  assert (HX : 2 ^ (a - e) = 2 ^ 52 * 2 ^ n)
    by (rewrite <- Z.pow_add_r by lia; f_equal; unfold n; lia).
  assert (H53 : 2 ^ 53 ≤ 2 ^ (a - e)) by (apply Z.pow_le_mono_r; lia).
  unfold SFadd. rewrite Z.min_r by lia.
  unfold shl_align at 2. rewrite Z.sub_diag.
  unfold shl_align.
  destruct (e - (a - 52)) as [|d|d] eqn:Hd; try lia.
  cbn [fst cond_Zopp].
  assert (HM : Z.pos (Pos.iter xO (Z.to_pos (2 ^ 52)) d) + Z.pos m = M).
  { rewrite shl_pos. unfold M. rewrite HX.
    replace (Z.pos d) with n by (unfold n; lia). done. }
  assert (Hrange : 2 ^ (52 + n) ≤ M < 2 ^ (53 + n)).
  { replace (52 + n) with (a - e) by (unfold n; lia).
    replace (53 + n) with (Z.succ (a - e)) by (unfold n; lia).
    rewrite Z.pow_succ_r by lia. unfold M. lia. }
  change (Z.pos (PosDef.Pos.iter xO (Z.to_pos (2 ^ 52)) d) + Z.pos m)
    with (Z.pos (Pos.iter xO (Z.to_pos (2 ^ 52)) d + m)) in *.
  generalize dependent (Pos.iter xO (Z.to_pos (2 ^ 52)) d + m)%positive.
  intros P HP. unfold binary_normalize.
  rewrite (binary_round_shift P e n) by (rewrite ?HP; lia).
  destruct (binary_round_aux_shift P e n) as (q' & Hq & Hup & ->);
    [rewrite ?HP; lia..|].
  rewrite HP in *. exists q'. split; [done|]. split; [done|].
  replace (e + n) with (a - 52) by (unfold n; lia).
  replace (a - 52 + 1) with (a - 51) by lia. done.
Qed.

Lemma Q_of_float_bounds (mm : positive) (ee L H : Z) :
  (0 ≤ ee → L ≤ Z.pos mm * 2 ^ ee ≤ H) →
  (ee < 0 → L * 2 ^ (- ee) ≤ Z.pos mm ≤ H * 2 ^ (- ee)) →
  (inject_Z L <= Q_of_float (S754_finite false mm ee))%Q
  ∧ (Q_of_float (S754_finite false mm ee) <= inject_Z H)%Q.
Proof.
  intros Hnn Hneg. unfold Q_of_float. case_decide as He.
  - rewrite <- !Zle_Qle. apply Hnn, He.
  - assert (0 < 2 ^ (- ee)) by (apply Z.pow_pos_nonneg; lia).
    unfold Qle. simpl. rewrite Z2Pos.id by done. lia.
Qed.

Lemma rounded_sum_cases (a e m q' : Z) :
  0 ≤ a ≤ 1023 → 0 < m < 2 ^ 53 → -1074 ≤ e ≤ -53 →
  let n := a - 52 - e in
  let M := 2 ^ (a - e) + m in
  M / 2 ^ n ≤ q' ≤ M / 2 ^ n + 1 →
  (q' = M / 2 ^ n + 1 → Z.odd (M / 2 ^ (n - 1)) = true) →
  (a ≤ 52 ∧ 2 ^ 52 ≤ q' ≤ 2 ^ 52 + 2 ^ (52 - a)) ∨ (53 ≤ a ∧ q' = 2 ^ 52).
Proof.
  intros Ha Hm He n M Hq Hup.
  assert (Hn : 1 ≤ n) by (unfold n; lia).
  assert (Hpn : 0 < 2 ^ n) by (apply Z.pow_pos_nonneg; lia).
  assert (HX : 2 ^ (a - e) = 2 ^ 52 * 2 ^ n)
    by (rewrite <- Z.pow_add_r by lia; f_equal; unfold n; lia).
  assert (Hq0 : M / 2 ^ n = 2 ^ 52 + m / 2 ^ n)
    by (unfold M; rewrite HX; apply Z.div_add_l; lia).
  assert (0 ≤ m / 2 ^ n) by (apply Z.div_pos; lia).
  destruct (Z.le_gt_cases a 52) as [Hle|Hgt]; [left|right]; split; try lia.
  - assert (He' : 2 ^ (- e) = 2 ^ n * 2 ^ (52 - a))
      by (rewrite <- Z.pow_add_r by lia; f_equal; unfold n; lia).
    assert (2 ^ 53 ≤ 2 ^ (- e)) by (apply Z.pow_le_mono_r; lia).
    assert (m / 2 ^ n < 2 ^ (52 - a)) by (apply Z.div_lt_upper_bound; lia).
    lia.
  - assert (Hpn1 : 0 < 2 ^ (n - 1)) by (apply Z.pow_pos_nonneg; lia).
    assert (H53 : 2 ^ 53 ≤ 2 ^ (n - 1)) by (apply Z.pow_le_mono_r; unfold n; lia).
    assert (HX1 : 2 ^ (a - e) = 2 ^ 53 * 2 ^ (n - 1))
      by (rewrite <- Z.pow_add_r by lia; f_equal; unfold n; lia).
    assert (Hodd : Z.odd (M / 2 ^ (n - 1)) = false).
    { unfold M. rewrite HX1, Z.div_add_l by lia.
      rewrite (Z.div_small m) by lia. done. }
    assert (2 ^ (n - 1) ≤ 2 ^ n) by (apply Z.pow_le_mono_r; lia).
    rewrite (Z.div_small m) in Hq0 by lia.
    destruct (decide (q' = M / 2 ^ n + 1)) as [Heq|Hne].
    + rewrite (Hup Heq) in Hodd. done.
    + lia.
Qed.

(** ** fetch_url *)





(** *** Retryable failures *)

Lemma attempt_once_retryable w url attempt :
  retryable (net w url attempt) →
  ∃ msg, attempt_once w url attempt
         = ([Request url; Log WARNING msg], Returned None).
Proof.
  unfold attempt_once, retryable.
  destruct (net w url attempt) as [code text| | |msg|e]; intros H; try done.
  - destruct H as [H200 H404]. repeat case_decide; try done. eauto.
  - eauto.
  - eauto.
  - eauto.
Qed.

Lemma pow2_converts_table : forallb pow2_converts (seqZ 0 1024) = true.
Proof. vm_compute. reflexivity. Qed.

Lemma float_of_int_pow2 (a : Z) :
  0 ≤ a ≤ 1023 →
  float_of_int (int_pow 2 a) = Returned (S754_finite false (Z.to_pos (2 ^ 52)) (a - 52)).
Proof.
  intros Ha.
  assert (Hin : a ∈ seqZ 0 1024) by (apply elem_of_seqZ; lia).
  pose proof pow2_converts_table as Ht.
  rewrite forallb_forall in Ht.
  specialize (Ht a (proj1 (list_elem_of_In _ _) Hin)).
  unfold pow2_converts in Ht.
  destruct (float_of_int (int_pow 2 a)) as [[s|s| |[] m e]|]; try done.
  apply bool_decide_eq_true in Ht as [Hm ->].
  do 2 f_equal. lia.
Qed.

Lemma backoff_delay_returns (a : Z) (u : float) :
  0 ≤ a ≤ 1023 →
  backoff_delay a u
  = Returned (SFadd prec emax (S754_finite false (Z.to_pos (2 ^ 52)) (a - 52)) u).
Proof.
  intros Ha. unfold backoff_delay, int_add_float, RETRY_DELAY_BASE.
  by rewrite float_of_int_pow2.
Qed.

(** *** The delay and the sleep *)

Lemma finite_or_inf_finite (m e : Z) :
  0 < m → e ≤ 971 →
  finite_or_inf m e = S754_finite false (Z.to_pos m) e.
Proof.
  intros Hm He. unfold finite_or_inf, emax, prec.
  destruct (Z.leb_spec e (1024 - 53)); [done|lia].
Qed.

Lemma pow2_split (a : Z) : 0 ≤ a → 52 ≤ a → 2 ^ a = 2 ^ 52 * 2 ^ (a - 52).
Proof. intros. rewrite <- Z.pow_add_r by lia. f_equal. lia. Qed.

Lemma pow2_split_neg (a : Z) : 0 ≤ a → a < 52 → 2 ^ 52 = 2 ^ a * 2 ^ (52 - a).
Proof. intros. rewrite <- Z.pow_add_r by lia. f_equal. lia. Qed.

Lemma delay_in_closed_pow2 (a : Z) :
  0 ≤ a ≤ 1023 →
  (inject_Z (2 ^ a) <= Q_of_float (S754_finite false (Z.to_pos (2 ^ 52)) (a - 52)))%Q
  ∧ (Q_of_float (S754_finite false (Z.to_pos (2 ^ 52)) (a - 52)) <= inject_Z (2 ^ a + 1))%Q.
Proof.
  intros Ha. apply Q_of_float_bounds; rewrite Z2Pos.id by done; intros He.
  - rewrite (pow2_split a) by lia. lia.
  - replace (- (a - 52)) with (52 - a) by lia.
    assert (0 < 2 ^ (52 - a)) by (apply Z.pow_pos_nonneg; lia).
    rewrite (pow2_split_neg a) by lia. nia.
Qed.

(** Adding a jitter below one to [2^a] gives a float between [2^a] and
    [2^a + 1], both ends included. *)
Lemma backoff_delay_bounds (a : Z) (u : float) :
  0 ≤ a ≤ 1023 → in_unit_interval u → delay_in_closed a u.
Proof.
  intros Ha Hu. unfold delay_in_closed.
  rewrite backoff_delay_returns by done. eexists; split; [reflexivity|].
  destruct (in_unit_interval_inv u Hu) as [[s ->]|(m & e & -> & Hm & He)].
  - simpl SFadd. split; [done|]. by apply delay_in_closed_pow2.
  - destruct (SFadd_pow2_unit a m e Ha Hm He) as (q' & Hq & Hup & ->).
    destruct (rounded_sum_cases a e (Z.pos m) q') as [[Hle Hq']|[Hge ->]];
      [lia..|done|done| |].
    + case_decide as Hlt.
      * rewrite finite_or_inf_finite by lia. split; [done|].
        apply Q_of_float_bounds; rewrite Z2Pos.id by lia; intros He'.
        -- assert (a = 52) as -> by lia. simpl in *. lia.
        -- replace (- (a - 52)) with (52 - a) by lia.
           assert (0 < 2 ^ (52 - a)) by (apply Z.pow_pos_nonneg; lia).
           pose proof (pow2_split_neg a) as Hs. nia.
      * assert (Ha0 : a = 0).
        { assert (2 ^ 53 = 2 * 2 ^ 52) by done.
          assert (2 ^ 52 ≤ 2 ^ (52 - a)) by lia.
          assert (52 ≤ 52 - a) by (apply (Z.pow_le_mono_r_iff 2); lia).
          lia. }
        subst a. split; [done|].
        unfold Q_of_float, Qle. simpl. lia.
    + rewrite decide_True by done.
      rewrite finite_or_inf_finite by lia. split; [done|].
      by apply delay_in_closed_pow2.
Qed.

(** The delay after the failed attempt of index [a <= 33]: its mantissa has
    53 bits, and it exceeds [2^a] by at most one. *)
Lemma backoff_delay_shape (a : Z) (u : float) :
  0 ≤ a ≤ 33 → in_unit_interval u →
  ∃ q E,
    backoff_delay a u = Returned (S754_finite false (Z.to_pos q) E)
    ∧ 2 ^ 52 ≤ q < 2 ^ 53
    ∧ ((E = a - 52 ∧ q ≤ 2 ^ 52 + 2 ^ (52 - a)) ∨ (a = 0 ∧ E = -51 ∧ q = 2 ^ 52)).
Proof.
  intros Ha Hu. rewrite backoff_delay_returns by lia.
  destruct (in_unit_interval_inv u Hu) as [[s ->]|(m & e & -> & Hm & He)].
  - exists (2 ^ 52), (a - 52). simpl SFadd. split; [done|]. split; [lia|].
    left. split; [done|].
    assert (0 < 2 ^ (52 - a)) by (apply Z.pow_pos_nonneg; lia). lia.
  - destruct (SFadd_pow2_unit a m e) as (q' & Hq & Hup & ->); [lia|done|done|].
    destruct (rounded_sum_cases a e (Z.pos m) q') as [[_ Hq']|[Hge _]];
      [lia..|done|done| |lia].
    case_decide as Hlt.
    + exists q', (a - 52). rewrite finite_or_inf_finite by lia.
      split; [done|]. split; [lia|]. left. split; [done|lia].
    + exists (2 ^ 52), (a - 51). rewrite finite_or_inf_finite by lia.
      assert (Ha0 : a = 0).
      { assert (2 ^ 53 = 2 * 2 ^ 52) by done.
        assert (2 ^ 52 ≤ 2 ^ (52 - a)) by lia.
        assert (52 ≤ 52 - a) by (apply (Z.pow_le_mono_r_iff 2); lia).
        lia. }
      subst a. split; [done|]. split; [lia|]. right. done.
Qed.

(** Multiplied by [1e9], such a delay stays below [2^63]. *)
Lemma nanoseconds_fit (a q E : Z) :
  0 ≤ a ≤ 33 → 2 ^ 52 ≤ q < 2 ^ 53 →
  (E = a - 52 ∧ q ≤ 2 ^ 52 + 2 ^ (52 - a)) ∨ (a = 0 ∧ E = -51 ∧ q = 2 ^ 52) →
  ∃ p E',
    SFmul prec emax (S754_finite false (Z.to_pos q) E) ns_per_second
    = S754_finite false p E'
    ∧ E' ≤ 10.
Proof.
  intros Ha Hq Hshape.
  unfold SFmul, ns_per_second. cbn [xorb].
  set (mc := 8388608000000000%positive).
  assert (Hmc : Z.pos mc = 8388608000000000) by done.
  assert (HM : Z.pos (Z.to_pos q * mc) = q * 8388608000000000)
    by (rewrite Pos2Z.inj_mul, Z2Pos.id, Hmc; lia).
  generalize dependent (Z.to_pos q * mc)%positive. intros M HM. clear mc Hmc.
  assert (HE : -52 ≤ E ≤ -19) by lia.
  assert (Hsmall : 32 ≤ a → Z.pos M < 2 ^ 52 * (2 ^ 53 - 1)).
  { intros Ha32.
    assert (2 ^ (52 - a) ≤ 2 ^ 20) by (apply Z.pow_le_mono_r; lia).
    destruct Hshape as [[_ Hle]|[-> _]]; lia. }
  destruct (Z.lt_ge_cases (Z.pos M) (2 ^ 105)) as [Hlt|Hge].
  - destruct (binary_round_aux_shift M (E + -23) 52) as (q' & Hq' & _ & ->);
      [lia|lia|lia|].
    assert (Hlo : 2 ^ 52 ≤ Z.pos M / 2 ^ 52) by (apply Z.div_le_lower_bound; lia).
    case_decide as Hcarry.
    + rewrite finite_or_inf_finite by lia. eexists _, _. split; [done|]. lia.
    + rewrite finite_or_inf_finite by lia. eexists _, _. split; [done|].
      destruct (Z.lt_ge_cases a 32) as [Ha32|Ha32]; [lia|].
      assert (Z.pos M / 2 ^ 52 < 2 ^ 53 - 1)
        by (apply Z.div_lt_upper_bound; [lia|by apply Hsmall]).
      lia.
  - destruct (Z.lt_ge_cases a 32) as [Ha32|Ha32]; [|specialize (Hsmall Ha32); lia].
    destruct (binary_round_aux_shift M (E + -23) 53) as (q' & Hq' & _ & ->);
      [lia|lia|lia|].
    assert (Hlo : 2 ^ 52 ≤ Z.pos M / 2 ^ 53) by (apply Z.div_le_lower_bound; lia).
    case_decide as Hcarry; rewrite finite_or_inf_finite by lia;
      eexists _, _; (split; [done|]); lia.
Qed.

(** [time.sleep] either sleeps or raises an instance of [Exception]. *)
Lemma time_sleep_cases (secs : float) :
  time_sleep secs = ([Sleep secs], Returned ())
  ∨ ∃ e, time_sleep secs = ([], Raised e) ∧ is_Exception e = true.
Proof.
  unfold time_sleep.
  destruct secs; try (right; by eauto);
    destruct (negb _); try (right; by eauto);
    destruct (_ || _)%bool; try (right; by eauto); by left.
Qed.

Lemma time_sleep_returns (a q E : Z) :
  0 ≤ a ≤ 33 → 2 ^ 52 ≤ q < 2 ^ 53 →
  (E = a - 52 ∧ q ≤ 2 ^ 52 + 2 ^ (52 - a)) ∨ (a = 0 ∧ E = -51 ∧ q = 2 ^ 52) →
  time_sleep (S754_finite false (Z.to_pos q) E)
  = ([Sleep (S754_finite false (Z.to_pos q) E)], Returned ()).
Proof.
  intros Ha Hq Hshape. unfold time_sleep.
  destruct (nanoseconds_fit a q E Ha Hq Hshape) as (p & E' & -> & HE').
  unfold SFleb, SFltb, SFeqb, SFopp, time_min, SFcompare. cbn [negb].
  destruct (Z.compare_spec E' 11) as [->|_|Hgt]; [lia| |lia]. done.
Qed.

Lemma backoff_sleeps w url retries attempt :
  0 ≤ attempt ≤ 33 → attempt < retries →
  in_unit_interval (uniform01 w url attempt) →
  ∃ d, backoff_delay attempt (uniform01 w url attempt) = Returned d
       ∧ backoff w url retries attempt = ([Sleep d], Returned ()).
Proof.
  intros Ha Hlt Hu. unfold backoff. case_decide; [|lia].
  destruct (backoff_delay_shape attempt _ Ha Hu) as (q & E & Hd & Hq & Hshape).
  rewrite Hd. eexists; split; [done|]. unfold lift, mbind, M_bind.
  by rewrite (time_sleep_returns attempt q E).
Qed.

(** In any world the backoff sleeps the computed delay, or raises an
    instance of [Exception] without sleeping. *)
Lemma backoff_before_last (w : world) (url : string) (retries attempt : Z) :
  attempt < retries →
  (∃ d, backoff_delay attempt (uniform01 w url attempt) = Returned d
        ∧ backoff w url retries attempt = ([Sleep d], Returned ()))
  ∨ (∃ e, backoff w url retries attempt = ([], Raised e)).
Proof.
  intros Hlt. unfold backoff. rewrite decide_True by done.
  destruct (backoff_delay attempt (uniform01 w url attempt)) as [d|e]; [|by eauto].
  unfold lift, mbind, M_bind.
  destruct (time_sleep_cases d) as [->|(e & -> & _)]; by eauto.
Qed.

Lemma backoff_last w url retries :
  backoff w url retries retries = ([], Returned ()).
Proof. unfold backoff. case_decide; [lia|done]. Qed.

Lemma fetch_loop_retryable w url retries (n : nat) (k : Z) :
  0 ≤ k → k + Z.of_nat n = retries → retries ≤ 34 →
  (∀ attempt, retryable (net w url attempt)) →
  (∀ attempt, in_unit_interval (uniform01 w url attempt)) →
  ∃ delays,
    length delays = n
    ∧ result (fetch_loop w url retries (seqZ k (Z.of_nat (S n)))) = Returned None
    ∧ io_events (trace (fetch_loop w url retries (seqZ k (Z.of_nat (S n)))))
      = alternating url delays.
Proof.
  intros Hk Hn Hmax Hnet Hu. revert k Hk Hn.
  induction n as [|n IH]; intros k Hk Hn.
  - assert (k = retries) as -> by lia.
    exists []. change (Z.of_nat 1) with 1.
    rewrite seqZ_cons by lia. simpl.
    destruct (attempt_once_retryable w url retries (Hnet _)) as [msg Hatt].
    rewrite (bind_returned _ _ _ _ Hatt). simpl.
    rewrite backoff_last. simpl. done.
  - rewrite seqZ_cons by lia. simpl fetch_loop.
    destruct (attempt_once_retryable w url k (Hnet _)) as [msg Hatt].
    rewrite (bind_returned _ _ _ _ Hatt).
    destruct (backoff_sleeps w url retries k) as (d & _ & Hd); [lia..|done|].
    cbn [result trace fst snd].
    rewrite (bind_returned _ _ _ _ Hd).
    destruct (IH (k + 1)) as (delays & Hlen & Hres & Hio); [lia..|].
    replace (Z.succ k) with (k + 1) by lia.
    replace (Z.pred (Z.of_nat (S (S n)))) with (Z.of_nat (S n)) by lia.
    exists (d :: delays). split_and!.
    + simpl. by rewrite Hlen.
    + simpl. exact Hres.
    + cbn [trace fst]. unfold io_events in *.
      rewrite !List.filter_app, Hio. done.
Qed.

(** As long as every delay fits [time.sleep] ([retries <= 34]) and the
    jitters are in [[0, 1)], a URL whose every attempt fails in a retryable
    way is requested [retries + 1] times with one sleep between consecutive
    requests, and [None] is returned. *)
Lemma fetch_url_retryable_bounded (w : world) (url : string) (retries : Z) :
  0 ≤ retries ≤ 34 →
  (∀ attempt, retryable (net w url attempt)) →
  (∀ attempt, in_unit_interval (uniform01 w url attempt)) →
  ∃ delays,
    Z.of_nat (length delays) = retries
    ∧ result (fetch_url w url retries) = Returned None
    ∧ io_events (trace (fetch_url w url retries)) = alternating url delays.
Proof.
  intros Hr Hnet Hu. unfold fetch_url, range.
  destruct (fetch_loop_retryable w url retries (Z.to_nat retries) 0)
    as (delays & Hlen & Hres & Hio); [lia..|done|done|].
  replace (Z.of_nat (S (Z.to_nat retries))) with (retries + 1) in * by lia.
  exists delays. split_and!; [lia|done..].
Qed.

Lemma alternating_requests url delays :
  length (List.filter is_request (alternating url delays)) = S (length delays)
  ∧ length (List.filter is_sleep (alternating url delays)) = length delays.
Proof.
  induction delays as [|d ds IH]; [done|].
  cbn in *. destruct IH as [-> ->]. done.
Qed.


(** *** Requests and sleeps alternate *)

Lemma attempt_once_io (w : world) (url : string) (attempt : Z) :
  io_events (trace (attempt_once w url attempt)) = [Request url].
Proof.
  unfold attempt_once.
  destruct (net w url attempt); repeat case_decide; done.
Qed.

Lemma io_events_app (t1 t2 : list event) :
  io_events (t1 ++ t2) = io_events t1 ++ io_events t2.
Proof. apply List.filter_app. Qed.

Lemma fetch_loop_alternates (w : world) (url : string) (retries : Z) (n : nat) (k : Z) :
  k + Z.of_nat n = retries →
  ∃ delays,
    (length delays ≤ n)%nat
    ∧ io_events (trace (fetch_loop w url retries (seqZ k (Z.of_nat (S n)))))
      = alternating url delays.
Proof.
  revert k. induction n as [|n IH]; intros k Hk.
  - assert (k = retries) as -> by lia. exists []. split; [done|].
    change (Z.of_nat 1) with 1. rewrite seqZ_cons by lia. cbn [fetch_loop].
    rewrite trace_bind.
    pose proof (attempt_once_io w url retries) as Hio.
    destruct (result (attempt_once w url retries)) as [[r|]|e].
    + by rewrite io_events_app, Hio.
    + rewrite io_events_app, Hio, backoff_last. done.
    + done.
  - rewrite seqZ_cons by lia. cbn [fetch_loop].
    rewrite trace_bind.
    pose proof (attempt_once_io w url k) as Hio.
    destruct (result (attempt_once w url k)) as [[r|]|e].
    + exists []. split; [simpl; lia|]. by rewrite io_events_app, Hio.
    + rewrite io_events_app, Hio, trace_bind.
      replace (Z.succ k) with (k + 1) by lia.
      replace (Z.pred (Z.of_nat (S (S n)))) with (Z.of_nat (S n)) by lia.
      destruct (backoff_before_last w url retries k) as [(d & _ & ->)|(e & ->)];
        [lia| |]; cbn [result trace fst snd].
      * destruct (IH (k + 1)) as (delays & Hlen & Hdelays); [lia|].
        exists (d :: delays). split; [simpl; lia|].
        rewrite io_events_app, Hdelays. done.
      * exists []. split; [simpl; lia|done].
    + exists []. split; [simpl; lia|done].
Qed.

(** *** The response that decides the call *)

Lemma attempt_once_decisive (w : world) (url : string) (attempt : Z)
    (res : outcome (option string)) :
  decides (net w url attempt) = Some res →
  io_events (trace (attempt_once w url attempt)) = [Request url]
  ∧ result (attempt_once w url attempt)
    = match res with
      | Returned r => Returned (Some r)
      | Raised e => Raised e
      end.
Proof.
  intros Hd. split; [apply attempt_once_io|].
  unfold attempt_once, decides in *.
  destruct (net w url attempt); repeat case_decide; by simplify_eq.
Qed.

Lemma fetch_loop_decisive (w : world) (url : string) (retries k : Z)
    (res : outcome (option string)) (m n : nat) (j : Z) :
  0 ≤ j → j + Z.of_nat n = retries → j + Z.of_nat m = k → k ≤ retries → k ≤ 34 →
  (∀ attempt, j ≤ attempt < k →
     retryable (net w url attempt) ∧ in_unit_interval (uniform01 w url attempt)) →
  decides (net w url k) = Some res →
  result (fetch_loop w url retries (seqZ j (Z.of_nat (S n)))) = res
  ∧ ∃ delays,
      length delays = m
      ∧ io_events (trace (fetch_loop w url retries (seqZ j (Z.of_nat (S n)))))
        = alternating url delays.
Proof.
  intros Hj Hn Hm Hk Hmax Hretry Hdec. revert n j Hj Hn Hm Hretry.
  induction m as [|m IH]; intros n j Hj Hn Hm Hretry.
  - assert (j = k) as -> by lia.
    rewrite seqZ_cons by lia. cbn [fetch_loop].
    destruct (attempt_once_decisive w url k res Hdec) as [Hio Hres].
    rewrite result_bind, trace_bind, Hres.
    destruct res as [r|e]; (split; [done|]); exists []; split; try done.
    by rewrite io_events_app, Hio.
  - destruct n as [|n]; [lia|].
    rewrite seqZ_cons by lia. cbn [fetch_loop].
    destruct (Hretry j) as [Hj_retry Hj_unit]; [lia|].
    destruct (attempt_once_retryable w url j) as [msg Hatt]; [done|].
    rewrite (bind_returned _ _ _ _ Hatt).
    destruct (backoff_sleeps w url retries j) as (d & _ & Hd); [lia..|done|].
    cbn [result trace fst snd].
    rewrite (bind_returned _ _ _ _ Hd).
    replace (Z.succ j) with (j + 1) by lia.
    replace (Z.pred (Z.of_nat (S (S n)))) with (Z.of_nat (S n)) by lia.
    destruct (IH n (j + 1)) as (Hres & delays & Hlen & Hio);
      [lia..|intros a Ha; apply Hretry; lia|].
    split; [done|]. exists (d :: delays). split; [simpl; lia|].
    cbn [trace fst]. rewrite !io_events_app, Hio. done.
Qed.

(** ** The backoff delay *)





(** The delays do not decrease from one attempt to the next: the delay after
    attempt [a + 1] is at least [2^(a+1)], the one after [a] at most
    [2^a + 1]. *)
Lemma backoff_delay_grows (a : Z) (u u' : float) :
  0 ≤ a ≤ 1022 → in_unit_interval u → in_unit_interval u' →
  ∃ d d', backoff_delay a u = Returned d
          ∧ backoff_delay (a + 1) u' = Returned d'
          ∧ (Q_of_float d <= Q_of_float d')%Q.
Proof.
  intros Ha Hu Hu'.
  destruct (backoff_delay_bounds a u) as (d & Hd & _ & _ & Hhi); [lia|done|].
  destruct (backoff_delay_bounds (a + 1) u') as (d' & Hd' & _ & Hlo & _);
    [lia|done|].
  exists d, d'. split; [done|]. split; [done|].
  eapply Qle_trans; [exact Hhi|]. eapply Qle_trans; [|exact Hlo].
  rewrite <- Zle_Qle. rewrite Z.pow_add_r by lia.
  assert (0 < 2 ^ a) by (apply Z.pow_pos_nonneg; lia). simpl. lia.
Qed.

(** ** Strings *)

Lemma app_cons (c : ascii) (s1 s2 : string) :
  String c s1 +:+ s2 = String c (s1 +:+ s2).
Proof. done. Qed.

Lemma app_nil_l (s : string) : "" +:+ s = s.
Proof. done. Qed.

Lemma app_assoc_str (s1 s2 s3 : string) : (s1 +:+ s2) +:+ s3 = s1 +:+ s2 +:+ s3.
Proof. induction s1 as [|c s1 IH]; [done|]. by rewrite !app_cons, IH. Qed.

Lemma length_app_str (s1 s2 : string) :
  String.length (s1 +:+ s2) = (String.length s1 + String.length s2)%nat.
Proof. induction s1 as [|c s1 IH]; [done|]. rewrite app_cons. simpl. by rewrite IH. Qed.

Lemma drop_str_app (s1 s2 : string) : drop_str (String.length s1) (s1 +:+ s2) = s2.
Proof. induction s1 as [|c s1 IH]; [done|]. by rewrite app_cons. Qed.

Lemma take_str_app (s1 s2 : string) : Re.take_str (String.length s1) (s1 +:+ s2) = s1.
Proof.
  induction s1 as [|c s1 IH]; [by destruct s2|].
  rewrite app_cons. simpl. by rewrite IH.
Qed.

Lemma rev_app_app (s1 s2 acc : string) :
  String.rev_app (s1 +:+ s2) acc = String.rev_app s2 (String.rev_app s1 acc).
Proof.
  revert acc. induction s1 as [|c s1 IH]; intros acc; [done|].
  rewrite app_cons. simpl. by rewrite IH.
Qed.

Lemma startswith_rev_app (p acc1 acc2 : string) :
  startswith acc1 acc2 = true →
  startswith (String.rev_app p acc1) (String.rev_app p acc2) = true.
Proof.
  revert acc1 acc2. induction p as [|c p IH]; intros acc1 acc2 H; [done|].
  simpl. apply IH. simpl. by rewrite decide_True.
Qed.

Lemma endswith_app (p s : string) : endswith p (s +:+ p) = true.
Proof.
  unfold endswith, String.rev. rewrite rev_app_app.
  by apply startswith_rev_app.
Qed.

(** ** The link pattern *)

Lemma iter_shift (k : nat) (r : Re.span) :
  Nat.iter k Re.shift r
  = {| Re.consumed := k + Re.consumed r;
       Re.g_open := k + Re.g_open r;
       Re.g_close := k + Re.g_close r |}.
Proof.
  induction k as [|k IH]; [by destruct r|].
  simpl. rewrite IH. done.
Qed.

Lemma exec_lit (c : ascii) (p : list Re.item) (s : string) (r : Re.span) :
  Re.exec (Re.Lit c :: p) s = Some r →
  ∃ s' r', s = String c s' ∧ Re.exec p s' = Some r' ∧ r = Re.shift r'.
Proof.
  simpl. destruct s as [|c' s']; [done|].
  case_decide as Hc; [|done]. subst c'.
  destruct (Re.exec p s') as [r'|] eqn:He; simpl; [|done].
  intros [= <-]. by exists s', r'.
Qed.

Lemma lazy_star_inv (k : string → option Re.span) (s : string) (r : Re.span) :
  Re.lazy_star k s = Some r →
  ∃ skipped rest r',
    s = skipped +:+ rest ∧ k rest = Some r'
    ∧ r = Nat.iter (String.length skipped) Re.shift r'.
Proof.
  revert r. induction s as [|c s IH]; intros r; simpl.
  - destruct (k "") as [r'|] eqn:He; [|done].
    intros [= <-]. by exists "", "", r'.
  - destruct (k (String c s)) as [r'|] eqn:He.
    + intros [= <-]. by exists "", (String c s), r'.
    + case_decide; [done|].
      destruct (Re.lazy_star k s) as [r1|] eqn:Hl; simpl; [|done].
      intros [= <-].
      destruct (IH r1 eq_refl) as (skipped & rest & r' & -> & Hr' & ->).
      by exists (String c skipped), rest, r'.
Qed.

Lemma exec_lazy (p : list Re.item) (s : string) (r : Re.span) :
  Re.exec (Re.AnyLazy :: p) s = Some r →
  ∃ skipped rest r',
    s = skipped +:+ rest ∧ Re.exec p rest = Some r'
    ∧ r = Nat.iter (String.length skipped) Re.shift r'.
Proof. apply lazy_star_inv. Qed.

Lemma exec_group_open (p : list Re.item) (s : string) (r : Re.span) :
  Re.exec (Re.GroupOpen :: p) s = Some r →
  ∃ r', Re.exec p s = Some r'
        ∧ r = {| Re.consumed := Re.consumed r'; Re.g_open := 0;
                 Re.g_close := Re.g_close r' |}.
Proof.
  simpl. destruct (Re.exec p s) as [r'|] eqn:He; simpl; [|done].
  intros [= <-]. by exists r'.
Qed.

Lemma exec_group_close (p : list Re.item) (s : string) (r : Re.span) :
  Re.exec (Re.GroupClose :: p) s = Some r →
  ∃ r', Re.exec p s = Some r'
        ∧ r = {| Re.consumed := Re.consumed r'; Re.g_open := Re.g_open r';
                 Re.g_close := 0 |}.
Proof.
  simpl. destruct (Re.exec p s) as [r'|] eqn:He; simpl; [|done].
  intros [= <-]. by exists r'.
Qed.

(** A match of the link pattern spans [[label](body.md)] and captures
    [body.md]. *)
Lemma exec_link_pattern (s : string) (r : Re.span) :
  Re.exec LINK_PATTERN s = Some r →
  ∃ label body rest,
    s = "[" +:+ label +:+ "](" +:+ (body +:+ ".md") +:+ ")" +:+ rest
    ∧ Re.group1 r s = body +:+ ".md"
    ∧ Re.consumed r = S (String.length (label +:+ "](" +:+ (body +:+ ".md") +:+ ")")).
Proof.
  unfold LINK_PATTERN. intros H.
  apply exec_lit in H as (s1 & r1 & -> & H & ->).
  apply exec_lazy in H as (label & s2 & r2 & -> & H & ->).
  apply exec_lit in H as (s3 & r3 & -> & H & ->).
  apply exec_lit in H as (s4 & r4 & -> & H & ->).
  apply exec_group_open in H as (r5 & H & ->).
  apply exec_lazy in H as (body & s6 & r6 & -> & H & ->).
  apply exec_lit in H as (s7 & r7 & -> & H & ->).
  apply exec_lit in H as (s8 & r8 & -> & H & ->).
  apply exec_lit in H as (s9 & r9 & -> & H & ->).
  apply exec_group_close in H as (r10 & H & ->).
  apply exec_lit in H as (rest & r11 & -> & H & ->).
  simpl in H. injection H as <-.
  exists label, body, rest. rewrite !iter_shift. simpl.
  split_and!.
  - by rewrite !app_cons, !app_nil_l, !app_assoc_str.
  - unfold Re.group1. simpl.
    replace (String.length label + S (S (String.length body + 3))
             - (String.length label + 2))%nat
      with (String.length (body +:+ ".md"))
      by (rewrite length_app_str; simpl; lia).
    replace (String.length label + 2)%nat with (String.length (label +:+ "]("))
      by (rewrite length_app_str; simpl; lia).
    replace (label +:+ String "]" (String "(" (body +:+
               String "." (String "m" (String "d" (String ")" rest))))))
      with ((label +:+ "](") +:+ (body +:+ ".md") +:+ (String ")" rest))
      by (by rewrite !app_assoc_str).
    by rewrite drop_str_app, take_str_app.
  - rewrite !length_app_str. simpl. lia.
Qed.

Lemma link_target_in_cons (c : ascii) (text target : string) :
  link_target_in text target → link_target_in (String c text) target.
Proof.
  intros (before & label & after & ->).
  exists (String c before), label, after. done.
Qed.

(** Every string [re.findall] returns for the link pattern is the target of
    an inline link of the text and ends in [.md]. *)
Lemma findall_from_sound (s : string) (skip : nat) (target : string) :
  target ∈ Re.findall_from LINK_PATTERN skip s →
  link_target_in s target ∧ endswith ".md" target = true.
Proof.
  revert skip. induction s as [|c s IH]; intros skip; cbn [Re.findall_from].
  - by intros ?%elem_of_nil.
  - destruct skip as [|k].
    + destruct (Re.exec LINK_PATTERN (String c s)) as [r|] eqn:He.
      * intros [->|Hin]%elem_of_cons.
        -- destruct (exec_link_pattern _ _ He) as (label & body & rest & Hs & -> & _).
           split; [|apply endswith_app].
           exists "", label, rest. by rewrite Hs.
        -- destruct (IH _ Hin) as [Hl He']. split; [|done].
           by apply link_target_in_cons.
      * intros Hin. destruct (IH _ Hin) as [Hl He']. split; [|done].
        by apply link_target_in_cons.
    + intros Hin. destruct (IH _ Hin) as [Hl He']. split; [|done].
      by apply link_target_in_cons.
Qed.

Lemma findall_sound (text target : string) :
  target ∈ Re.findall LINK_PATTERN text →
  link_target_in text target ∧ endswith ".md" target = true.
Proof. apply findall_from_sound. Qed.

(** ** extract_md_links *)

Lemma add_links_spec (w : world) (matches : list string) (acc S : gset string) :
  add_links w matches acc = Returned S →
  (∀ u, u ∈ S ↔ u ∈ acc ∨ ∃ m, m ∈ matches ∧ absolute_url w m = Returned u)
  ∧ (∀ m, m ∈ matches → ∃ u, absolute_url w m = Returned u).
Proof.
  revert acc. induction matches as [|m rest IH]; intros acc; simpl.
  - intros [= <-]. split.
    + intros u. split; [by left|]. intros [?|(m & ?%elem_of_nil & _)]; done.
    + by intros m ?%elem_of_nil.
  - destruct (absolute_url w m) as [u0|e] eqn:Hm; [|done].
    intros Hrest. destruct (IH _ Hrest) as [Hin Hall]. split.
    + intros u. rewrite Hin. split.
      * intros [[->%elem_of_singleton|Hacc]%elem_of_union|(m' & Hm' & Hu)].
        -- right. exists m. split; [left|done].
        -- by left.
        -- right. exists m'. split; [by right|done].
      * intros [Hacc|(m' & [->|Hm']%elem_of_cons & Hu)].
        -- left. apply elem_of_union. by right.
        -- left. rewrite Hm in Hu. injection Hu as <-.
           apply elem_of_union. left. by apply elem_of_singleton.
        -- right. by exists m'.
    + intros m' [->|Hm']%elem_of_cons; [by exists u0|by apply Hall].
Qed.

(** C5. Whatever [extract_md_links] returns, each element comes from the
    target of an inline link of the text that ends in [.md]: a target that
    starts with [http://] or [https://] is the element itself, any other
    target is joined to [BASE_URL].  Every captured target contributes its
    URL, and the result being a set holds each URL once. *)
Theorem extract_md_links_sound (w : world) (text_content : option string)
    (links : gset string) :
  extract_md_links w text_content = Returned links →
  (∀ u, u ∈ links →
     ∃ text target,
       text_content = Some text
       ∧ link_target_in text target
       ∧ endswith ".md" target = true
       ∧ (if (startswith "http://" target || startswith "https://" target)%bool
          then u = target
          else urljoin w BASE_URL target = Returned u))
  ∧ (∀ text target,
       text_content = Some text →
       target ∈ Re.findall LINK_PATTERN text →
       ∃ u, absolute_url w target = Returned u ∧ u ∈ links)
  ∧ NoDup (elements links).
Proof.
  unfold extract_md_links. intros H.
  destruct text_content as [text|]; simpl in H.
  - destruct text as [|c text]; simpl in H.
    + injection H as <-. split_and!.
      * by intros u ?%not_elem_of_empty.
      * intros text target [= <-]. simpl. by intros ?%elem_of_nil.
      * apply NoDup_elements.
    + destruct (add_links_spec _ _ _ _ H) as [Hin Hall]. split_and!.
      * intros u [?%not_elem_of_empty|(target & Ht & Hu)]%Hin; [done|].
        destruct (findall_sound _ _ Ht) as [Hl He].
        exists (String c text), target. split_and!; try done.
        unfold absolute_url in Hu.
        destruct (startswith "http://" target || startswith "https://" target)%bool;
          [by injection Hu|done].
      * intros text' target [= <-] Ht.
        destruct (Hall _ Ht) as [u Hu]. exists u. split; [done|].
        apply Hin. right. by exists target.
      * apply NoDup_elements.
  - injection H as <-. split_and!.
    + by intros u ?%not_elem_of_empty.
    + done.
    + apply NoDup_elements.
Qed.

Lemma extract_md_links_sound_witness :
  extract_md_links always_not_found (Some sample_seed)
  = Returned {[ "https://docs.p2p.org/a.md"; "https://x/b.md" ]}
  ∧ NoDup (elements ({[ "https://docs.p2p.org/a.md"; "https://x/b.md" ]} : gset string)).
Proof.
  assert (H : extract_md_links always_not_found (Some sample_seed)
              = Returned {[ "https://docs.p2p.org/a.md"; "https://x/b.md" ]})
    by (by vm_compute).
  split; [exact H|].
  exact (proj2 (proj2 (extract_md_links_sound always_not_found (Some sample_seed)
                         {[ "https://docs.p2p.org/a.md"; "https://x/b.md" ]} H))).
Defined.

(** The example of the specification: two links to the same relative target
    and one absolute link give two URLs. *)
Example extract_md_links_sample :
  Re.findall LINK_PATTERN sample_seed = ["a.md"; "https://x/b.md"; "a.md"]
  ∧ extract_md_links always_not_found (Some sample_seed)
    = Returned {[ "https://docs.p2p.org/a.md"; "https://x/b.md" ]}.
Proof. by vm_compute. Qed.

(** C6. [extract_md_links] returns the empty set for the empty string and for
    [None]. *)
Theorem extract_md_links_empty_input (w : world) :
  extract_md_links w (Some "") = Returned ∅
  ∧ extract_md_links w None = Returned ∅.
Proof. done. Qed.

(** ** The download loop *)

Lemma results_of_app (t1 t2 : list event) :
  results_of (t1 ++ t2) = results_of t1 ++ results_of t2.
Proof. apply omap_app. Qed.

Lemma failed_of_app (t1 t2 : list event) :
  failed_of (t1 ++ t2) = failed_of t1 ++ failed_of t2.
Proof. apply omap_app. Qed.

Lemma succeeded_urls_app (t1 t2 : list event) :
  succeeded_urls (t1 ++ t2) = succeeded_urls t1 ++ succeeded_urls t2.
Proof. unfold succeeded_urls. by rewrite results_of_app, fmap_app. Qed.

(** A task hands back its own URL, with [None] or a non-empty body. *)
Lemma download_md_file_result (w : world) (url url' : string) (content : option string) :
  result (download_md_file w url) = Returned (url', content) →
  url' = url ∧ (content = None ∨ truthy content = true).
Proof.
  unfold download_md_file. rewrite result_bind.
  destruct (result (fetch_url w url MAX_RETRIES)) as [c|e]; [|done].
  destruct (truthy c) eqn:Hc; simpl; intros [= <- <-]; auto.
Qed.

Lemma handle_completed_handled (w : world) (url : string) :
  handled w url (trace (handle_completed w url)) (result (handle_completed w url)).
Proof.
  unfold handle_completed.
  destruct (result (download_md_file w url)) as [[url' content]|e] eqn:Hd.
  - destruct (download_md_file_result _ _ _ _ Hd) as [-> Hc].
    unfold lift. simpl.
    destruct content as [text|]; [|by constructor].
    destruct Hc as [|Hc]; [done|]. rewrite Hc. simpl.
    unfold write_file.
    destruct (write_error w (path_join md_files_dir (basename url))) as [e|] eqn:Hw;
      simpl; [|by econstructor].
    destruct (is_Exception e) eqn:He; simpl; by econstructor.
  - simpl. destruct (is_Exception e) eqn:He; simpl; by constructor.
Qed.

(** The body returns exactly when nothing escapes it. *)
Lemma handle_completed_returns (w : world) (url : string) :
  contained w url → result (handle_completed w url) = Returned ().
Proof.
  intros [Htask Hwrite].
  destruct (handle_completed_handled w url) as [| |text e Hd Hw He| | |e Hd He];
    try done.
  - by rewrite (Hwrite e Hw) in He.
  - by rewrite (Htask e Hd) in He.
Qed.

Lemma process_completed_returns (w : world) (order : list string) :
  (∀ url, url ∈ order → contained w url) →
  result (process_completed w order) = Returned ().
Proof.
  induction order as [|url rest IH]; [done|]. intros Hall.
  simpl. rewrite result_bind, handle_completed_returns by (apply Hall; by left).
  apply IH. intros u Hu. apply Hall. by right.
Qed.

Lemma process_completed_inv (w : world) (url : string) (rest : list string) :
  result (process_completed w (url :: rest)) = Returned () →
  result (handle_completed w url) = Returned ()
  ∧ result (process_completed w rest) = Returned ()
  ∧ trace (process_completed w (url :: rest))
    = trace (handle_completed w url) ++ trace (process_completed w rest).
Proof.
  simpl. rewrite result_bind, trace_bind.
  by destruct (result (handle_completed w url)) as [[]|e].
Qed.

(** The trace of the loop: the events of the bodies that were run, up to and
    including the first one that an exception leaves. *)
Lemma process_completed_trace (w : world) (url : string) (rest : list string) :
  trace (process_completed w (url :: rest))
  = trace (handle_completed w url)
      ++ match result (handle_completed w url) with
         | Returned _ => trace (process_completed w rest)
         | Raised _ => []
         end.
Proof.
  simpl. rewrite trace_bind.
  destruct (result (handle_completed w url)); by rewrite ?app_nil_r.
Qed.

(** When the loop returns, a completed task has left its URL in at least one
    of the two lists, and no other URL has entered them. *)
Lemma process_completed_covers (w : world) (order : list string) (url : string) :
  result (process_completed w order) = Returned () →
  url ∈ order ↔
  url ∈ succeeded_urls (trace (process_completed w order))
  ∨ url ∈ failed_of (trace (process_completed w order)).
Proof.
  induction order as [|u rest IH].
  - simpl. split; [by intros ?%elem_of_nil|]. by intros [?%elem_of_nil|?%elem_of_nil].
  - intros (Hu & Hrest & ->)%process_completed_inv.
    rewrite succeeded_urls_app, failed_of_app.
    rewrite !elem_of_app, elem_of_cons, (IH Hrest).
    pose proof (handle_completed_handled w u) as Hh. rewrite Hu in Hh.
    inversion Hh; cbn; rewrite ?elem_of_cons, ?elem_of_nil; intuition.
Qed.

(** When the loop returns and no individual file fails to be written, the
    two lists partition the URLs: each URL is in exactly one of them, once. *)
Lemma process_completed_partition (w : world) (order : list string) :
  result (process_completed w order) = Returned () →
  (∀ url, url ∈ order → write_error w (path_join md_files_dir (basename url)) = None) →
  succeeded_urls (trace (process_completed w order))
    ++ failed_of (trace (process_completed w order)) ≡ₚ order.
Proof.
  intros Hres Hw. induction order as [|u rest IH]; [done|].
  apply process_completed_inv in Hres as (Hu & Hrest & ->).
  rewrite succeeded_urls_app, failed_of_app.
  assert (Hwrest : ∀ url, url ∈ rest →
            write_error w (path_join md_files_dir (basename url)) = None)
    by (intros url Hin; apply Hw; by right).
  specialize (IH Hrest Hwrest).
  pose proof (handle_completed_handled w u) as Hh. rewrite Hu in Hh.
  inversion Hh as [text Hd Hwr|text e Hd Hwr| | |e Hd|]; cbn.
  - by rewrite IH.
  - rewrite Hw in Hwr by left. done.
  - etrans; [symmetry; apply Permutation_middle|]. by apply perm_skip.
  - etrans; [symmetry; apply Permutation_middle|]. by apply perm_skip.
Qed.

(** With a fair [as_completed], a loop that returns and no failing
    individual write, the success records and the failure list of the
    download phase partition the link set. *)
Lemma downloads_partition (w : world) (md_links : gset string) :
  fair_completion w →
  result (process_completed w (as_completed w (elements md_links))) = Returned () →
  (∀ url, url ∈ md_links →
          write_error w (path_join md_files_dir (basename url)) = None) →
  let downloads := trace (process_completed w (as_completed w (elements md_links))) in
  succeeded_urls downloads ++ failed_of downloads ≡ₚ elements md_links.
Proof.
  intros Hfair Hres Hw downloads. unfold downloads.
  rewrite process_completed_partition; [apply Hfair|done|].
  intros url Hin. apply Hw, elem_of_elements. by rewrite <- (Hfair (elements md_links)).
Qed.

(** C1. The property fails when the individual file of a downloaded page
    cannot be written: line 180 has already appended the record to [results]
    when the write of lines 185-186 raises, and the handler of line 191 then
    appends the URL to [failed_urls] as well.  In the run below the single URL
    ends up in both outputs, is merged into the aggregate document and is
    listed in the manifest. *)
Theorem write_error_lists_url_twice :
  let t := trace (main disk_full) in
  result (main disk_full) = Returned ()
  ∧ results_of t = [("https://docs.p2p.org/guide.md", "hello")]
  ∧ failed_of t = ["https://docs.p2p.org/guide.md"]
  ∧ files_written t !! FAILED_FILE = Some (manifest ["https://docs.p2p.org/guide.md"]).
Proof. vm_compute. done. Qed.

(** ** Traces of fetch_url *)

Lemma attempt_once_net (w : world) (url : string) (attempt : Z) :
  forallb net_event (trace (attempt_once w url attempt)) = true.
Proof.
  unfold attempt_once.
  destruct (net w url attempt); repeat case_decide; done.
Qed.

Lemma backoff_net (w : world) (url : string) (retries attempt : Z) :
  forallb net_event (trace (backoff w url retries attempt)) = true.
Proof.
  destruct (decide (attempt < retries)) as [Hlt|Hge].
  - by destruct (backoff_before_last w url retries attempt Hlt)
      as [(d & _ & ->)|(e & ->)].
  - unfold backoff. by rewrite decide_False.
Qed.

Lemma fetch_loop_net (w : world) (url : string) (retries : Z) (attempts : list Z) :
  forallb net_event (trace (fetch_loop w url retries attempts)) = true.
Proof.
  induction attempts as [|a rest IH]; [done|].
  simpl. rewrite trace_bind.
  pose proof (attempt_once_net w url a) as Ha.
  destruct (result (attempt_once w url a)) as [[r|]|e]; [| |done].
  - rewrite forallb_app, Ha. done.
  - rewrite forallb_app, Ha, trace_bind.
    pose proof (backoff_net w url retries a) as Hb.
    destruct (result (backoff w url retries a)); [|done].
    by rewrite forallb_app, Hb, IH.
Qed.

Lemma fetch_url_net (w : world) (url : string) (retries : Z) :
  forallb net_event (trace (fetch_url w url retries)) = true.
Proof. apply fetch_loop_net. Qed.

(** A trace of network events appends to no list, submits no task and
    writes no file. *)
Lemma net_trace_quiet (t : list event) :
  forallb net_event t = true →
  results_of t = [] ∧ failed_of t = []
  ∧ List.filter is_submit t = [] ∧ List.filter is_write t = []
  ∧ (∀ path, writes_to path t = []).
Proof.
  induction t as [|ev t IH]; [done|].
  simpl. intros [Hev Ht]%andb_prop.
  destruct (IH Ht) as (Hr & Hf & Hs & Hw & Hp).
  destruct ev; try done; cbn; rewrite ?Hr, ?Hf, ?Hs, ?Hw; split_and!; try done;
    intros path; apply Hp.
Qed.

Lemma net_trace_no_files (t : list event) :
  forallb net_event t = true → files_written t = ∅.
Proof.
  unfold files_written. generalize (∅ : gmap string string).
  induction t as [|ev t IH]; intros fs Hnet; [done|].
  simpl in Hnet. apply andb_prop in Hnet as [Hev Ht].
  simpl. destruct ev; try done; by apply IH.
Qed.

(** ** The run driver *)

Lemma main_from_seed_no_seed (w : world) (main_content : option string) :
  truthy main_content = false →
  main_from_seed w main_content
  = ([Log ERROR "Failed to fetch the main file. Exiting."], Returned ()).
Proof. intros H. unfold main_from_seed. by rewrite H. Qed.

Lemma main_from_seed_no_links (w : world) (main_content : option string) :
  truthy main_content = true →
  extract_md_links w main_content = Returned ∅ →
  main_from_seed w main_content
  = ([Log WARNING "No markdown links found. Exiting."], Returned ()).
Proof.
  intros Ht He. unfold main_from_seed. rewrite Ht, He. simpl.
  by rewrite decide_True.
Qed.

Lemma main_from_seed_links (w : world) (main_content : option string)
    (md_links : gset string) :
  truthy main_content = true →
  extract_md_links w main_content = Returned md_links →
  md_links ≠ ∅ →
  main_from_seed w main_content = download_and_aggregate w md_links.
Proof.
  intros Ht He Hne. unfold main_from_seed. rewrite Ht, He. simpl.
  rewrite decide_False by done. by destruct (download_and_aggregate w md_links).
Qed.

Lemma mapM_submit (l : list string) :
  trace (mapM (λ url, emit (Submit url)) l) = Submit <$> l
  ∧ ∃ units, result (mapM (λ url, emit (Submit url)) l) = Returned units.
Proof.
  induction l as [|url l [IHt [units IHr]]]; [by eauto|].
  cbn [mapM]. rewrite !trace_bind, !result_bind, !result_emit, !trace_emit.
  rewrite ?trace_bind, ?result_bind, IHt, IHr.
  unfold mret, M_ret. cbn [result trace fst snd].
  rewrite app_nil_r. eauto.
Qed.

(** The run from the directory to the two output files, when the directory
    exists or can be made and no exception leaves the loop. *)
Lemma download_and_aggregate_spec (w : world) (md_links : gset string) :
  let order := as_completed w (elements md_links) in
  let loop := trace (process_completed w order) in
  path_exists w md_files_dir = true ∨ makedirs_error w md_files_dir = None →
  result (process_completed w order) = Returned () →
  trace (download_and_aggregate w md_links)
  = (if path_exists w md_files_dir then [] else [MakeDirs md_files_dir])
      ++ (Submit <$> elements md_links) ++ loop ++ trace (finish w loop)
  ∧ result (download_and_aggregate w md_links) = result (finish w loop).
Proof.
  intros order loop Hdir Hloop. unfold download_and_aggregate.
  destruct (mapM_submit (elements md_links)) as [Ht [units Hr]].
  assert (Hsetup : (if path_exists w md_files_dir then mret ()
                    else makedirs w md_files_dir)
                   = ((if path_exists w md_files_dir then []
                       else [MakeDirs md_files_dir]), Returned ())).
  { destruct (path_exists w md_files_dir); [done|].
    destruct Hdir as [|Hm]; [done|]. unfold makedirs. by rewrite Hm. }
  rewrite Hsetup, !trace_bind, !result_bind. cbn [result trace fst snd].
  fold order. by rewrite Ht, Hr, Hloop.
Qed.

(** A run of that phase that returns has made or found the directory, and no
    exception has left its loop. *)
Lemma download_and_aggregate_returned (w : world) (md_links : gset string) :
  result (download_and_aggregate w md_links) = Returned () →
  (path_exists w md_files_dir = true ∨ makedirs_error w md_files_dir = None)
  ∧ result (process_completed w (as_completed w (elements md_links))) = Returned ().
Proof.
  unfold download_and_aggregate.
  destruct (mapM_submit (elements md_links)) as [_ [units Hr]].
  rewrite !result_bind.
  destruct (path_exists w md_files_dir) eqn:Hp.
  - cbn [result mret M_ret snd]. rewrite Hr.
    destruct (result (process_completed w (as_completed w (elements md_links))))
      as [[]|e]; [by auto|done].
  - unfold makedirs.
    destruct (makedirs_error w md_files_dir) eqn:Hm; [done|].
    rewrite result_emit, Hr.
    destruct (result (process_completed w (as_completed w (elements md_links))))
      as [[]|e]; [by auto|done].
Qed.

Lemma finish_spec (w : world) (downloads : list event) :
  result (finish w downloads) = Returned () →
  ∃ warning,
    forallb net_event warning = true
    ∧ trace (finish w downloads)
      = warning
          ++ [WriteFile OUTPUT_FILE
                (aggregate_document (results_of downloads) (strftime w))]
          ++ match failed_of downloads with
             | [] => []
             | _ :: _ => [WriteFile FAILED_FILE (manifest (failed_of downloads))]
             end.
Proof.
  unfold finish, write_file. intros Hres.
  set (warn := if decide (Z.of_nat (length (failed_of downloads)) > 0) then _ else _) in *.
  assert (Hwarn : ∃ t, warn = (t, Returned ()) ∧ forallb net_event t = true)
    by (unfold warn; case_decide; eauto).
  destruct Hwarn as (t & Hw & Hnet). rewrite Hw in *. clear warn Hw.
  exists t. split; [done|]. simpl in *.
  destruct (write_error w OUTPUT_FILE); [done|]. simpl in *.
  destruct (failed_of downloads) as [|u l]; [done|].
  destruct (write_error w FAILED_FILE); [done|]. done.
Qed.

(** C8. When the seed fetch returns [None], or the links extracted from the
    seed are the empty set, [main] reports it (an ERROR record for the missing
    seed, a WARNING record for the missing links) and returns at once: its
    trace is that of the seed fetch followed by the record, no task is
    submitted, no file is written and no list is appended to. *)
Theorem main_aborts_before_downloads (w : world) (main_content : option string) :
  result (fetch_url w INITIAL_URL MAX_RETRIES) = Returned main_content →
  main_content = None ∨ extract_md_links w main_content = Returned ∅ →
  let t := trace (main w) in
  result (main w) = Returned ()
  ∧ t = trace (fetch_url w INITIAL_URL MAX_RETRIES)
        ++ [if truthy main_content
            then Log WARNING "No markdown links found. Exiting."
            else Log ERROR "Failed to fetch the main file. Exiting."]
  ∧ List.filter is_submit t = []
  ∧ List.filter is_write t = []
  ∧ files_written t = ∅
  ∧ results_of t = [] ∧ failed_of t = [].
Proof.
  intros Hfetch Hseed t.
  assert (Hmain : main_from_seed w main_content
                  = ([if truthy main_content
                      then Log WARNING "No markdown links found. Exiting."
                      else Log ERROR "Failed to fetch the main file. Exiting."],
                     Returned ())).
  { destruct (truthy main_content) eqn:Ht.
    - destruct Hseed as [->|He]; [done|]. by apply main_from_seed_no_links.
    - by apply main_from_seed_no_seed. }
  assert (Ht : t = trace (fetch_url w INITIAL_URL MAX_RETRIES)
                   ++ [if truthy main_content
                       then Log WARNING "No markdown links found. Exiting."
                       else Log ERROR "Failed to fetch the main file. Exiting."]).
  { unfold t, main. by rewrite trace_bind, Hfetch, Hmain. }
  assert (Hnet : forallb net_event t = true).
  { rewrite Ht, forallb_app, fetch_url_net. by destruct (truthy main_content). }
  destruct (net_trace_quiet t Hnet) as (Hr & Hf & Hs & Hw & _).
  split_and!; try done.
  - unfold main. by rewrite result_bind, Hfetch, Hmain.
  - by apply net_trace_no_files.
Qed.

Lemma main_aborts_before_downloads_witness :
  result (fetch_url always_not_found INITIAL_URL MAX_RETRIES) = Returned None
  ∧ result (main always_not_found) = Returned ()
  ∧ trace (main always_not_found)
    = trace (fetch_url always_not_found INITIAL_URL MAX_RETRIES)
        ++ [Log ERROR "Failed to fetch the main file. Exiting."]
  ∧ List.filter is_submit (trace (main always_not_found)) = []
  ∧ List.filter is_write (trace (main always_not_found)) = []
  ∧ files_written (trace (main always_not_found)) = ∅
  ∧ results_of (trace (main always_not_found)) = []
  ∧ failed_of (trace (main always_not_found)) = [].
Proof.
  split; [reflexivity|].
  apply (main_aborts_before_downloads always_not_found None); [reflexivity|by left].
Defined.

(** ** The failure manifest *)

Lemma writes_to_app (path : string) (t1 t2 : list event) :
  writes_to path (t1 ++ t2) = writes_to path t1 ++ writes_to path t2.
Proof. apply omap_app. Qed.

Lemma writes_to_submit (path : string) (l : list string) :
  writes_to path (Submit <$> l) = []
  ∧ failed_of (Submit <$> l) = [] ∧ results_of (Submit <$> l) = [].
Proof. induction l as [|u l IH]; [done|]. simpl. apply IH. Qed.

(** Individual files never share the path of the manifest. *)
Lemma individual_path_not_manifest (filename : string) :
  path_join md_files_dir filename ≠ FAILED_FILE.
Proof.
  unfold path_join. destruct (startswith "/" filename) eqn:Hs.
  - intros ->. done.
  - change (bool_decide (md_files_dir = "") || endswith "/" md_files_dir) with false.
    cbv. discriminate.
Qed.

Lemma process_completed_no_manifest (w : world) (order : list string) :
  writes_to FAILED_FILE (trace (process_completed w order)) = [].
Proof.
  induction order as [|u rest IH]; [done|].
  rewrite process_completed_trace, writes_to_app.
  assert (Hrest : writes_to FAILED_FILE
                    match result (handle_completed w u) with
                    | Returned _ => trace (process_completed w rest)
                    | Raised _ => []
                    end = []) by (by destruct (result (handle_completed w u))).
  rewrite Hrest, app_nil_r.
  destruct (handle_completed_handled w u); cbn; try done.
  by rewrite decide_False by apply individual_path_not_manifest.
Qed.

(** The shape of a run that returns: it aborted after the seed fetch, or it
    went through the downloads, the aggregate document and the manifest. *)
Lemma main_returned (w : world) :
  result (main w) = Returned () →
  ∃ seed,
    forallb net_event seed = true
    ∧ (trace (main w) = seed
       ∨ ∃ setup downloads,
           writes_to FAILED_FILE setup = [] ∧ failed_of setup = []
           ∧ results_of setup = []
           ∧ writes_to FAILED_FILE downloads = []
           ∧ result (finish w downloads) = Returned ()
           ∧ trace (main w) = seed ++ setup ++ downloads ++ trace (finish w downloads)).
Proof.
  unfold main. rewrite result_bind, trace_bind.
  pose proof (fetch_url_net w INITIAL_URL MAX_RETRIES) as Hnet.
  destruct (result (fetch_url w INITIAL_URL MAX_RETRIES)) as [c|e]; [|done].
  destruct (truthy c) eqn:Ht.
  - destruct (extract_md_links w c) as [links|e] eqn:He.
    + destruct (decide (links = ∅)) as [->|Hne].
      * rewrite main_from_seed_no_links by done. intros _.
        eexists. split; [|by left]. by rewrite forallb_app, Hnet.
      * rewrite (main_from_seed_links w c links) by done.
        intros Hfin.
        destruct (download_and_aggregate_returned w links Hfin) as [Hdir Hloop].
        destruct (download_and_aggregate_spec w links Hdir Hloop) as [Htrace Hres].
        rewrite Hres in Hfin. rewrite Htrace.
        exists (trace (fetch_url w INITIAL_URL MAX_RETRIES)).
        split; [done|]. right.
        exists ((if path_exists w md_files_dir then [] else [MakeDirs md_files_dir])
                  ++ (Submit <$> elements links)),
               (trace (process_completed w (as_completed w (elements links)))).
        destruct (writes_to_submit FAILED_FILE (elements links)) as (Hw & Hf & Hr).
        rewrite writes_to_app, failed_of_app, results_of_app, Hw, Hf, Hr.
        rewrite process_completed_no_manifest.
        split_and!; try done; try (by destruct (path_exists w md_files_dir));
          try (by rewrite <- !app_assoc).
    + unfold main_from_seed. rewrite Ht, He. done.
  - rewrite main_from_seed_no_seed by done. intros _.
    eexists. split; [|by left]. by rewrite forallb_app, Hnet.
Qed.

(** C9, amended. In a run that returns, [failed_urls.txt] is written exactly when
    [failed_urls] is not empty; it is written once, and its text is the URLs
    of [failed_urls] in order, each followed by a newline. *)
Theorem manifest_written_iff_failed (w : world) :
  result (main w) = Returned () →
  let t := trace (main w) in
  (failed_of t = [] → writes_to FAILED_FILE t = [])
  ∧ (failed_of t ≠ [] → writes_to FAILED_FILE t = [manifest (failed_of t)])
  ∧ (∀ text, WriteFile FAILED_FILE text ∈ t ↔
             failed_of t ≠ [] ∧ text = manifest (failed_of t)).
Proof.
  intros Hres t.
  assert (Hwrites : writes_to FAILED_FILE t
                    = match failed_of t with
                      | [] => []
                      | _ :: _ => [manifest (failed_of t)]
                      end).
  { destruct (main_returned w Hres) as (seed & Hnet & Hshape).
    destruct (net_trace_quiet seed Hnet) as (_ & Hsf & _ & _ & Hsw).
    unfold t. destruct Hshape as [->|(setup & downloads & Hw & Hf & _ & Hdw & Hfin & ->)].
    - by rewrite Hsf, Hsw.
    - destruct (finish_spec w downloads Hfin) as (warning & Hwn & ->).
      destruct (net_trace_quiet warning Hwn) as (_ & Hwf & _ & _ & Hww).
      rewrite !writes_to_app, !failed_of_app, Hsw, Hsf, Hw, Hf, Hdw, Hwf, Hww.
      cbn. rewrite decide_False by done.
      destruct (failed_of downloads) as [|u l] eqn:Hfl; cbn; [done|].
      rewrite decide_True by done. by rewrite !app_nil_r. }
  assert (Hin : ∀ text, WriteFile FAILED_FILE text ∈ t ↔ text ∈ writes_to FAILED_FILE t).
  { intros text. unfold writes_to. rewrite list_elem_of_omap. split.
    - intros Hin. exists (WriteFile FAILED_FILE text). by rewrite decide_True.
    - intros (ev & Hev & Hsome). destruct ev; try done.
      case_decide; [|done]. by simplify_eq. }
  split_and!.
  - intros Hf. by rewrite Hwrites, Hf.
  - intros Hf. rewrite Hwrites. by destruct (failed_of t).
  - intros text. rewrite Hin, Hwrites.
    destruct (failed_of t) as [|u l].
    + split; [by intros ?%elem_of_nil|by intros [? _]].
    + rewrite list_elem_of_singleton. split; [done|by intros [_ ->]].
Qed.

Lemma manifest_written_iff_failed_witness :
  result (main one_missing) = Returned ()
  ∧ failed_of (trace (main one_missing)) = ["https://docs.p2p.org/old.md"]
  ∧ writes_to FAILED_FILE (trace (main one_missing))
    = [manifest (failed_of (trace (main one_missing)))].
Proof.
  split; [by vm_compute|]. split; [by vm_compute|].
  apply (manifest_written_iff_failed one_missing); by vm_compute.
Defined.

(** C9 as stated fails when the run is cut short between the downloads and
    the manifest: here one URL has failed, writing the aggregate document
    raises, [main] is left through the exception and no manifest is
    written. *)
Lemma manifest_missing_after_aggregate_error :
  result (main aggregate_unwritable)
  = Raised (Exception "PermissionError" "[Errno 13] Permission denied")
  ∧ failed_of (trace (main aggregate_unwritable)) = ["https://docs.p2p.org/old.md"]
  ∧ writes_to FAILED_FILE (trace (main aggregate_unwritable)) = []
  ∧ files_written (trace (script aggregate_unwritable)) !! FAILED_FILE = None.
Proof. by vm_compute. Qed.

(** ** A run that found links *)

(** Individual files never share the path of the aggregate document. *)
Lemma individual_path_not_output (filename : string) :
  path_join md_files_dir filename ≠ OUTPUT_FILE.
Proof.
  unfold path_join. destruct (startswith "/" filename) eqn:Hs.
  - intros ->. done.
  - change (bool_decide (md_files_dir = "") || endswith "/" md_files_dir) with false.
    cbv. discriminate.
Qed.

(** The run from the directory on, whether or not an exception leaves the
    loop. *)
Lemma download_and_aggregate_run (w : world) (md_links : gset string) :
  let order := as_completed w (elements md_links) in
  let loop := trace (process_completed w order) in
  directory_ready w →
  trace (download_and_aggregate w md_links)
  = (if path_exists w md_files_dir then [] else [MakeDirs md_files_dir])
      ++ (Submit <$> elements md_links) ++ loop
      ++ match result (process_completed w order) with
         | Returned _ => trace (finish w loop)
         | Raised _ => []
         end
  ∧ result (download_and_aggregate w md_links)
    = match result (process_completed w order) with
      | Returned _ => result (finish w loop)
      | Raised e => Raised e
      end.
Proof.
  intros order loop Hdir. unfold directory_ready in Hdir.
  destruct (result (process_completed w order)) as [[]|e] eqn:Hloop.
  - by apply download_and_aggregate_spec.
  - unfold download_and_aggregate.
    destruct (mapM_submit (elements md_links)) as [Ht [units Hr]].
    assert (Hsetup : (if path_exists w md_files_dir then mret ()
                      else makedirs w md_files_dir)
                     = ((if path_exists w md_files_dir then []
                         else [MakeDirs md_files_dir]), Returned ())).
    { destruct (path_exists w md_files_dir); [done|].
      destruct Hdir as [|Hm]; [done|]. unfold makedirs. by rewrite Hm. }
    rewrite Hsetup, !trace_bind, !result_bind. cbn [result trace fst snd].
    fold order. rewrite Ht, Hr, Hloop. by rewrite app_nil_r.
Qed.

(** What [finish] does, whether or not it returns. *)
Lemma finish_trace (w : world) (downloads : list event) :
  ∃ warning,
    forallb net_event warning = true
    ∧ trace (finish w downloads)
      = warning
          ++ match write_error w OUTPUT_FILE with
             | Some _ => []
             | None =>
                 WriteFile OUTPUT_FILE
                   (aggregate_document (results_of downloads) (strftime w))
                 :: match failed_of downloads, write_error w FAILED_FILE with
                    | _ :: _, None => [WriteFile FAILED_FILE (manifest (failed_of downloads))]
                    | _, _ => []
                    end
             end
    ∧ result (finish w downloads)
      = match write_error w OUTPUT_FILE with
        | Some e => Raised e
        | None =>
            match failed_of downloads, write_error w FAILED_FILE with
            | _ :: _, Some e => Raised e
            | _, _ => Returned ()
            end
        end.
Proof.
  unfold finish, write_file.
  set (warn := if decide (Z.of_nat (length (failed_of downloads)) > 0) then _ else _) in *.
  assert (Hwarn : ∃ t, warn = (t, Returned ()) ∧ forallb net_event t = true)
    by (unfold warn; case_decide; eauto).
  destruct Hwarn as (t & -> & Hnet). exists t. split; [done|].
  destruct (write_error w OUTPUT_FILE); cbn; [by rewrite app_nil_r|].
  destruct (failed_of downloads) as [|u l]; cbn; [done|].
  destruct (write_error w FAILED_FILE); cbn; done.
Qed.

Lemma process_completed_quiet (w : world) (order : list string) :
  writes_to OUTPUT_FILE (trace (process_completed w order)) = []
  ∧ List.filter is_submit (trace (process_completed w order)) = [].
Proof.
  induction order as [|u rest [IHw IHs]]; [done|].
  rewrite process_completed_trace, writes_to_app, List.filter_app.
  assert (Hrest : writes_to OUTPUT_FILE
                    match result (handle_completed w u) with
                    | Returned _ => trace (process_completed w rest)
                    | Raised _ => []
                    end = []
                  ∧ List.filter is_submit
                      match result (handle_completed w u) with
                      | Returned _ => trace (process_completed w rest)
                      | Raised _ => []
                      end = [])
    by (by destruct (result (handle_completed w u))).
  destruct Hrest as [-> ->]. rewrite !app_nil_r.
  destruct (handle_completed_handled w u); cbn; try done.
  by rewrite decide_False by apply individual_path_not_output.
Qed.

Lemma setup_quiet (w : world) (path : string) :
  let setup := if path_exists w md_files_dir then [] else [MakeDirs md_files_dir] in
  writes_to path setup = [] ∧ results_of setup = [] ∧ failed_of setup = []
  ∧ List.filter is_submit setup = [].
Proof. by destruct (path_exists w md_files_dir). Qed.

Lemma filter_submit_fmap (l : list string) :
  List.filter is_submit (Submit <$> l) = Submit <$> l.
Proof. induction l as [|u l IH]; [done|]. cbn. by rewrite IH. Qed.

Lemma finish_quiet (w : world) (downloads : list event) :
  results_of (trace (finish w downloads)) = []
  ∧ failed_of (trace (finish w downloads)) = []
  ∧ List.filter is_submit (trace (finish w downloads)) = [].
Proof.
  destruct (finish_trace w downloads) as (warning & Hnet & -> & _).
  destruct (net_trace_quiet warning Hnet) as (Hr & Hf & Hs & _).
  rewrite results_of_app, failed_of_app, List.filter_app, Hr, Hf, Hs.
  destruct (write_error w OUTPUT_FILE); [done|].
  destruct (failed_of downloads), (write_error w FAILED_FILE); done.
Qed.

(** The run once links were found and the directory is there: the seed
    fetch, the directory, one task per link, the loop over the completed
    tasks and, unless an exception leaves the loop, the two output files. *)
Lemma main_linked (w : world) (seed : option string) (links : gset string) :
  result (fetch_url w INITIAL_URL MAX_RETRIES) = Returned seed →
  truthy seed = true →
  extract_md_links w seed = Returned links →
  links ≠ ∅ →
  directory_ready w →
  let order := as_completed w (elements links) in
  let loop := trace (process_completed w order) in
  trace (main w)
  = trace (fetch_url w INITIAL_URL MAX_RETRIES)
      ++ (if path_exists w md_files_dir then [] else [MakeDirs md_files_dir])
      ++ (Submit <$> elements links) ++ loop
      ++ match result (process_completed w order) with
         | Returned _ => trace (finish w loop)
         | Raised _ => []
         end
  ∧ result (main w)
    = match result (process_completed w order) with
      | Returned _ => result (finish w loop)
      | Raised e => Raised e
      end.
Proof.
  intros Hfetch Ht He Hne Hdir order loop. unfold main.
  rewrite trace_bind, result_bind, Hfetch.
  rewrite (main_from_seed_links w seed links) by done.
  by destruct (download_and_aggregate_run w links Hdir) as [-> ->].
Qed.

(** The observations of such a run, read off its trace. *)
Lemma main_linked_observed (w : world) (seed : option string) (links : gset string) :
  result (fetch_url w INITIAL_URL MAX_RETRIES) = Returned seed →
  truthy seed = true →
  extract_md_links w seed = Returned links →
  links ≠ ∅ →
  directory_ready w →
  let order := as_completed w (elements links) in
  let loop := trace (process_completed w order) in
  let t := trace (main w) in
  List.filter is_submit t = Submit <$> elements links
  ∧ results_of t = results_of loop
  ∧ failed_of t = failed_of loop
  ∧ writes_to OUTPUT_FILE t
    = match result (process_completed w order), write_error w OUTPUT_FILE with
      | Returned _, None => [aggregate_document (results_of loop) (strftime w)]
      | _, _ => []
      end.
Proof.
  intros Hfetch Ht He Hne Hdir order loop t.
  destruct (main_linked w seed links Hfetch Ht He Hne Hdir) as [Htrace _].
  unfold t. rewrite Htrace. fold order. fold loop.
  destruct (net_trace_quiet _ (fetch_url_net w INITIAL_URL MAX_RETRIES))
    as (Hr & Hf & Hs & _ & Hw).
  destruct (setup_quiet w OUTPUT_FILE) as (Hsw & Hsr & Hsf & Hss).
  destruct (writes_to_submit OUTPUT_FILE (elements links)) as (Htw & Htf & Htr).
  destruct (process_completed_quiet w order) as [Hlw Hls].
  fold loop in Hlw, Hls.
  rewrite !List.filter_app, !results_of_app, !failed_of_app, !writes_to_app.
  rewrite Hr, Hf, Hs, Hw, Hsw, Hsr, Hsf, Hss, Htw, Htf, Htr, Hlw, Hls.
  rewrite filter_submit_fmap. cbn [app].
  destruct (result (process_completed w order)) as [[]|e].
  - destruct (finish_quiet w loop) as (Hfr & Hff & Hfs).
    rewrite Hfr, Hff, Hfs, !app_nil_r.
    split_and!; try done.
    destruct (finish_trace w loop) as (warning & Hnet & -> & _).
    destruct (net_trace_quiet warning Hnet) as (_ & _ & _ & _ & Hww).
    rewrite writes_to_app, Hww. cbn [app].
    destruct (write_error w OUTPUT_FILE); [done|].
    cbn. rewrite decide_True by done.
    destruct (failed_of loop), (write_error w FAILED_FILE); cbn; try done.
  - cbn. by rewrite !app_nil_r.
Qed.

(** A run that returns aborted after the seed fetch, or it found links,
    found or made the directory, went through its loop and wrote the
    aggregate document. *)
Lemma main_returned_cases (w : world) :
  result (main w) = Returned () →
  forallb net_event (trace (main w)) = true
  ∨ ∃ seed links,
      result (fetch_url w INITIAL_URL MAX_RETRIES) = Returned seed
      ∧ truthy seed = true
      ∧ extract_md_links w seed = Returned links
      ∧ links ≠ ∅
      ∧ directory_ready w
      ∧ result (process_completed w (as_completed w (elements links))) = Returned ()
      ∧ write_error w OUTPUT_FILE = None.
Proof.
  intros Hres.
  pose proof (fetch_url_net w INITIAL_URL MAX_RETRIES) as Hnet.
  destruct (result (fetch_url w INITIAL_URL MAX_RETRIES)) as [c|e] eqn:Hfetch.
  - destruct (truthy c) eqn:Ht.
    + destruct (extract_md_links w c) as [links|e] eqn:He.
      * destruct (decide (links = ∅)) as [->|Hne].
        -- left. unfold main. rewrite trace_bind, Hfetch.
           rewrite main_from_seed_no_links by done. by rewrite forallb_app, Hnet.
        -- right. exists c, links.
           assert (Hrun : result (download_and_aggregate w links) = Returned ()).
           { unfold main in Hres. rewrite result_bind, Hfetch in Hres.
             by rewrite (main_from_seed_links w c links) in Hres. }
           destruct (download_and_aggregate_returned w links Hrun) as [Hdir Hloop].
           destruct (download_and_aggregate_spec w links Hdir Hloop) as [_ Hfin].
           rewrite Hfin in Hrun.
           destruct (finish_trace w (trace (process_completed w
                                              (as_completed w (elements links)))))
             as (_ & _ & _ & Hfres).
           rewrite Hfres in Hrun.
           split_and!; try done.
           by destruct (write_error w OUTPUT_FILE).
      * left. unfold main, main_from_seed. rewrite trace_bind, Hfetch, Ht, He.
        cbn. by rewrite app_nil_r.
    + left. unfold main. rewrite trace_bind, Hfetch.
      rewrite main_from_seed_no_seed by done. by rewrite forallb_app, Hnet.
  - left. unfold main. by rewrite trace_bind, Hfetch.
Qed.

(** ** Empty bodies *)

(** C10. [fetch_url] returns the empty string when the response that decides
    the call is a 200 with an empty body, on the first attempt or after
    retried failures; and whenever [fetch_url] returns the empty string,
    every caller treats it as a failure: [download_md_file] hands back
    [(url, None)], the loop appends the URL to [failed_urls] and nothing to
    [results], and [main] continues from an empty seed exactly as from
    [None]: it logs the same error and returns. *)
Theorem empty_body_counts_as_failure (w : world) (url : string) :
  (∀ k, 0 ≤ k ≤ MAX_RETRIES →
        (∀ attempt, 0 ≤ attempt < k →
           retryable (net w url attempt) ∧ in_unit_interval (uniform01 w url attempt)) →
        net w url k = HttpResponse 200 "" →
        result (fetch_url w url MAX_RETRIES) = Returned (Some ""))
  ∧ (result (fetch_url w url MAX_RETRIES) = Returned (Some "") →
     result (download_md_file w url) = Returned (url, None)
     ∧ handle_completed w url
       = ([AppendFailed url; Log ERROR ("Failed to download: " +:+ url)], Returned ())
     ∧ main_from_seed w (Some "") = main_from_seed w None
     ∧ (url = INITIAL_URL →
        main w = (trace (fetch_url w INITIAL_URL MAX_RETRIES)
                    ++ [Log ERROR "Failed to fetch the main file. Exiting."],
                  Returned ()))).
Proof.
  split.
  - intros k Hk Hretry Hnet. unfold fetch_url, range.
    destruct (fetch_loop_decisive w url MAX_RETRIES k (Returned (Some ""))
                (Z.to_nat k) 3 0) as [Hres _];
      [lia|done|lia|lia|unfold MAX_RETRIES in Hk; lia|done|by rewrite Hnet|done].
  - intros Hfetch.
    assert (Hdl : result (download_md_file w url) = Returned (url, None))
      by (unfold download_md_file; by rewrite result_bind, Hfetch).
    split_and!; try done.
    + unfold handle_completed. by rewrite Hdl.
    + intros ->. unfold main.
      destruct (fetch_url w INITIAL_URL MAX_RETRIES) as [t r]. cbn in Hfetch.
      by subst r.
Qed.

Lemma empty_body_counts_as_failure_witness :
  result (fetch_url empty_after_retry INITIAL_URL MAX_RETRIES) = Returned (Some "")
  ∧ result (download_md_file empty_after_retry INITIAL_URL)
    = Returned (INITIAL_URL, None)
  ∧ handle_completed empty_after_retry INITIAL_URL
    = ([AppendFailed INITIAL_URL; Log ERROR ("Failed to download: " +:+ INITIAL_URL)],
       Returned ())
  ∧ main_from_seed empty_after_retry (Some "") = main_from_seed empty_after_retry None
  ∧ (INITIAL_URL = INITIAL_URL →
     main empty_after_retry
     = (trace (fetch_url empty_after_retry INITIAL_URL MAX_RETRIES)
          ++ [Log ERROR "Failed to fetch the main file. Exiting."],
        Returned ())).
Proof.
  assert (Hfetch : result (fetch_url empty_after_retry INITIAL_URL MAX_RETRIES)
                   = Returned (Some "")).
  { apply (proj1 (empty_body_counts_as_failure empty_after_retry INITIAL_URL) 1).
    - unfold MAX_RETRIES. lia.
    - intros attempt Ha. assert (attempt = 0) as -> by lia.
      split; [exact I|by vm_compute].
    - reflexivity. }
  split; [exact Hfetch|].
  exact (proj2 (empty_body_counts_as_failure empty_after_retry INITIAL_URL) Hfetch).
Defined.

(** ** The aggregate document *)

Lemma contains_here (sub rest : string) : contains sub (sub +:+ rest).
Proof. exists "", rest. done. Qed.

Lemma contains_app_r (sub before s : string) :
  contains sub s → contains sub (before +:+ s).
Proof.
  intros (b & a & ->). exists (before +:+ b), a. by rewrite app_assoc_str.
Qed.

Lemma contains_app_l (sub s after : string) :
  contains sub s → contains sub (s +:+ after).
Proof.
  intros (b & a & ->). exists b, (a +:+ after). by rewrite !app_assoc_str.
Qed.

Lemma toc_entries_contains (i : Z) (before after : list (string * string))
    (url content : string) :
  contains (toc_entry (i + Z.of_nat (length before)) url)
           (toc_entries i (before ++ (url, content) :: after)).
Proof.
  revert i. induction before as [|[u c] before IH]; intros i.
  - simpl. rewrite Z.add_0_r. apply contains_here.
  - cbn [app toc_entries length]. apply contains_app_r.
    replace (i + Z.of_nat (S (length before)))
      with (i + 1 + Z.of_nat (length before)) by lia.
    apply IH.
Qed.

Lemma sections_contains (before after : list (string * string)) (url content : string) :
  contains (section url content) (sections (before ++ (url, content) :: after)).
Proof.
  induction before as [|[u c] before IH].
  - apply contains_here.
  - cbn [app sections]. by apply contains_app_r.
Qed.

(** The table-of-contents entry and the section of every record are in the
    document. *)
Lemma aggregate_document_contains (before after : list (string * string))
    (url content now : string) :
  let doc := aggregate_document (before ++ (url, content) :: after) now in
  contains (toc_entry (1 + Z.of_nat (length before)) url) doc
  ∧ contains (section url content) doc.
Proof.
  unfold aggregate_document. split.
  - do 16 apply contains_app_r. apply contains_app_l, toc_entries_contains.
  - do 21 apply contains_app_r. apply sections_contains.
Qed.

Lemma basename_after_slash (directory filename : string) :
  basename filename = filename →
  basename (directory +:+ "/" +:+ filename) = filename.
Proof.
  intros Hf. unfold basename.
  generalize (directory +:+ "/" +:+ filename) at 1.
  induction directory as [|c directory IH]; intros acc.
  - done.
  - rewrite app_cons. simpl. case_decide; apply IH.
Qed.

(** C7. In a run of [main] that returns and whose [results] hold a record
    with a URL ending in the path segment [foo-bar.md] and the content
    [hello], the text written to the aggregate document contains the entry
    [i. [Foo Bar](#foo-bar)] of the table of contents and the section headed
    [## Foo Bar] with the source line and [hello] verbatim: the title is
    [Foo Bar] and the anchor is [foo-bar]. *)
Theorem aggregate_foo_bar (w : world) (directory : string) :
  let url := directory +:+ "/foo-bar.md" in
  result (main w) = Returned () →
  (url, "hello") ∈ results_of (trace (main w)) →
  title_of url = "Foo Bar"
  ∧ anchor_of (title_of url) = "foo-bar"
  ∧ ∃ doc i,
      writes_to OUTPUT_FILE (trace (main w)) = [doc]
      ∧ 1 ≤ i ≤ Z.of_nat (length (results_of (trace (main w))))
      ∧ contains (str_of_int i +:+ ". [Foo Bar](#foo-bar)" +:+ nl) doc
      ∧ contains ("## Foo Bar" +:+ nl +:+ nl
                    +:+ "*Source: [" +:+ url +:+ "](" +:+ url +:+ ")*" +:+ nl +:+ nl
                    +:+ "hello"
                    +:+ nl +:+ nl +:+ "---" +:+ nl +:+ nl) doc.
Proof.
  intros url Hres Hin.
  assert (Htitle : title_of url = "Foo Bar").
  { assert (Hb : basename url = "foo-bar.md")
      by (by apply (basename_after_slash directory "foo-bar.md")).
    unfold title_of. by rewrite Hb. }
  split; [done|]. split; [by rewrite Htitle|].
  destruct (main_returned_cases w Hres)
    as [Hnet|(seed & links & Hfetch & Ht & He & Hne & Hdir & Hloop & Hout)].
  { destruct (net_trace_quiet _ Hnet) as (Hr & _). rewrite Hr in Hin.
    by apply elem_of_nil in Hin. }
  destruct (main_linked_observed w seed links Hfetch Ht He Hne Hdir)
    as (_ & Hr & _ & Hw).
  rewrite Hloop, Hout in Hw. rewrite Hr in Hin. rewrite Hr, Hw.
  apply list_elem_of_split in Hin as (before & after & ->).
  destruct (aggregate_document_contains before after url "hello" (strftime w))
    as [Htoc Hsec].
  unfold toc_entry, section in *. rewrite Htitle in *.
  eexists _, (1 + Z.of_nat (length before)). split; [done|].
  split; [rewrite length_app; cbn; lia|]. split; done.
Qed.

Lemma aggregate_foo_bar_witness :
  let url := "https://docs.p2p.org/api" +:+ "/foo-bar.md" in
  title_of url = "Foo Bar"
  ∧ anchor_of (title_of url) = "foo-bar"
  ∧ ∃ doc i,
      writes_to OUTPUT_FILE (trace (main foo_bar_site)) = [doc]
      ∧ 1 ≤ i ≤ Z.of_nat (length (results_of (trace (main foo_bar_site))))
      ∧ contains (str_of_int i +:+ ". [Foo Bar](#foo-bar)" +:+ nl) doc
      ∧ contains ("## Foo Bar" +:+ nl +:+ nl
                    +:+ "*Source: [" +:+ url +:+ "](" +:+ url +:+ ")*" +:+ nl +:+ nl
                    +:+ "hello"
                    +:+ nl +:+ nl +:+ "---" +:+ nl +:+ nl) doc.
Proof.
  apply (aggregate_foo_bar foo_bar_site "https://docs.p2p.org/api").
  - by vm_compute.
  - vm_compute. left.
Defined.

(** * Further properties of the script *)

(** ** fetch_url: attempts and sleeps *)







(** ** fetch_url: the time spent sleeping *)

Lemma sleeps_of_app (t1 t2 : list event) :
  sleeps_of (t1 ++ t2) = sleeps_of t1 ++ sleeps_of t2.
Proof. apply omap_app. Qed.

Lemma sleeps_of_sleep (d : float) (t : list event) :
  sleeps_of (Sleep d :: t) = d :: sleeps_of t.
Proof. done. Qed.

Lemma attempt_once_sleeps (w : world) (url : string) (attempt : Z) :
  sleeps_of (trace (attempt_once w url attempt)) = [].
Proof.
  unfold attempt_once.
  destruct (net w url attempt); repeat case_decide; done.
Qed.

Lemma pow2_step (k : Z) : 0 ≤ k → 2 ^ (k + 1) = 2 * 2 ^ k.
Proof. intros. rewrite Z.pow_add_r by lia. lia. Qed.

Lemma fetch_loop_sleeps (w : world) (url : string) (retries : Z) (n : nat) (k : Z) :
  0 ≤ k → k + Z.of_nat n = retries → retries ≤ 1024 →
  (∀ attempt, in_unit_interval (uniform01 w url attempt)) →
  let delays := sleeps_of (trace (fetch_loop w url retries (seqZ k (Z.of_nat (S n))))) in
  Forall (λ d, is_finite d = true ∧ (1 <= Q_of_float d)%Q) delays
  ∧ (total_seconds delays <= inject_Z (2 ^ retries - 2 ^ k + (retries - k)))%Q.
Proof.
  intros Hk Hn Hmax Hu. revert k Hk Hn.
  assert (Hzero : ∀ k, 0 ≤ k ≤ retries →
            (0 <= inject_Z (2 ^ retries - 2 ^ k + (retries - k)))%Q).
  { intros k Hk. change 0%Q with (inject_Z 0). rewrite <- Zle_Qle.
    assert (2 ^ k ≤ 2 ^ retries) by (apply Z.pow_le_mono_r; lia). lia. }
  induction n as [|n IH]; intros k Hk Hn.
  - assert (k = retries) as -> by lia.
    change (Z.of_nat 1) with 1. rewrite seqZ_cons by lia. cbn [fetch_loop].
    rewrite trace_bind.
    pose proof (attempt_once_sleeps w url retries) as Hs.
    destruct (result (attempt_once w url retries)) as [[r|]|e];
      rewrite ?sleeps_of_app, ?Hs, ?backoff_last; cbn;
      (split; [constructor|apply Hzero; lia]).
  - rewrite seqZ_cons by lia. cbn [fetch_loop].
    rewrite trace_bind.
    pose proof (attempt_once_sleeps w url k) as Hs.
    replace (Z.succ k) with (k + 1) by lia.
    replace (Z.pred (Z.of_nat (S (S n)))) with (Z.of_nat (S n)) by lia.
    destruct (result (attempt_once w url k)) as [[r|]|e];
      rewrite ?sleeps_of_app, ?Hs; cbn [app];
      [split; [constructor|apply Hzero; lia]| |split; [constructor|apply Hzero; lia]].
    rewrite trace_bind.
    destruct (backoff_delay_bounds k (uniform01 w url k)) as (d & Hd & Hfin & Hlo & Hhi);
      [lia|done|].
    destruct (backoff_before_last w url retries k) as [(d' & Hd' & ->)|(e & ->)];
      [lia| |cbn; split; [constructor|apply Hzero; lia]].
    rewrite Hd in Hd'. injection Hd' as <-.
    cbn [result trace fst snd app].
    destruct (IH (k + 1)) as [Hall Htot]; [lia..|].
    rewrite sleeps_of_sleep.
    split.
    + constructor; [|done]. split; [done|].
      eapply Qle_trans; [|exact Hlo]. change 1%Q with (inject_Z 1). rewrite <- Zle_Qle.
      assert (0 < 2 ^ k) by (apply Z.pow_pos_nonneg; lia). lia.
    + cbn [total_seconds foldr].
      replace (2 ^ retries - 2 ^ k + (retries - k))
        with ((2 ^ k + 1) + (2 ^ retries - 2 ^ (k + 1) + (retries - (k + 1))))
        by (rewrite pow2_step by lia; lia).
      rewrite inject_Z_plus. by apply Qplus_le_compat.
Qed.

(** X4. When [2 ** attempt] converts to float ([retries <= 1024]) and every
    jitter is a float in [[0, 1)], each delay slept by one call of
    [fetch_url] is finite and at least one second, and the delays add up to
    at most [2^retries - 1 + retries] seconds: ten seconds with the default
    three retries. *)
Theorem fetch_url_sleep_budget (w : world) (url : string) (retries : Z) :
  0 ≤ retries ≤ 1024 →
  (∀ attempt, in_unit_interval (uniform01 w url attempt)) →
  Forall (λ d, is_finite d = true ∧ (1 <= Q_of_float d)%Q)
         (sleeps_of (trace (fetch_url w url retries)))
  ∧ (total_seconds (sleeps_of (trace (fetch_url w url retries)))
     <= inject_Z (2 ^ retries - 1 + retries))%Q.
Proof.
  intros Hr Hu. unfold fetch_url, range.
  destruct (fetch_loop_sleeps w url retries (Z.to_nat retries) 0) as [Hall Htot];
    [lia..|done|].
  replace (Z.of_nat (S (Z.to_nat retries))) with (retries + 1) in * by lia.
  split; [done|].
  by replace (2 ^ retries - 1 + retries) with (2 ^ retries - 2 ^ 0 + (retries - 0)) by lia.
Qed.

Lemma fetch_url_sleep_budget_witness :
  Forall (λ d, is_finite d = true ∧ (1 <= Q_of_float d)%Q)
         (sleeps_of (trace (fetch_url flaky_once "https://docs.p2p.org/a.md" MAX_RETRIES)))
  ∧ (total_seconds (sleeps_of (trace (fetch_url flaky_once "https://docs.p2p.org/a.md"
                                        MAX_RETRIES)))
     <= inject_Z 10)%Q.
Proof.
  apply (fetch_url_sleep_budget flaky_once "https://docs.p2p.org/a.md" MAX_RETRIES).
  - unfold MAX_RETRIES. lia.
  - intros attempt. by vm_compute.
Defined.

(** ** The link pattern: what is found *)

Lemma occurs_app (c : ascii) (s1 s2 : string) :
  occurs c (s1 +:+ s2) = (occurs c s1 || occurs c s2)%bool.
Proof.
  induction s1 as [|c' s1 IH]; [done|].
  rewrite app_cons. simpl. by case_decide.
Qed.

Lemma lazy_star_hit (k : string → option Re.span) (s : string) (r : Re.span) :
  k s = Some r → Re.lazy_star k s = Some r.
Proof. intros H. destruct s; simpl; by rewrite H. Qed.

(** A lazy star passes over [skipped] when what follows the star matches
    after it and at no earlier position. *)
Lemma lazy_star_complete (k : string → option Re.span) (skipped rest : string)
    (r : Re.span) :
  occurs Re.newline skipped = false →
  (∀ before suffix, skipped = before +:+ suffix → suffix ≠ "" →
                    k (suffix +:+ rest) = None) →
  k rest = Some r →
  Re.lazy_star k (skipped +:+ rest)
  = Some (Nat.iter (String.length skipped) Re.shift r).
Proof.
  intros Hnl Hfail Hk. induction skipped as [|c skipped IH].
  - by apply lazy_star_hit.
  - rewrite app_cons. simpl in Hnl |- *.
    rewrite <- app_cons, (Hfail "" (String c skipped)) by done.
    destruct (decide (c = Re.newline)) as [->|Hc];
      [by rewrite decide_True in Hnl by done|].
    rewrite decide_False in Hnl by congruence.
    rewrite IH; [done|done|].
    intros before suffix -> Hne. by apply (Hfail (String c before) suffix).
Qed.

Lemma exec_any_lazy (p : list Re.item) (s : string) :
  Re.exec (Re.AnyLazy :: p) s = Re.lazy_star (Re.exec p) s.
Proof. done. Qed.

Lemma exec_group_open_eq (p : list Re.item) (s : string) :
  Re.exec (Re.GroupOpen :: p) s
  = (λ r, {| Re.consumed := Re.consumed r; Re.g_open := 0;
             Re.g_close := Re.g_close r |}) <$> Re.exec p s.
Proof. done. Qed.

Lemma exec_lit_mismatch (c c' : ascii) (p : list Re.item) (s : string) :
  c ≠ c' → Re.exec (Re.Lit c :: p) (String c' s) = None.
Proof. intros Hc. simpl. by rewrite decide_False. Qed.

Lemma exec_lit_match (c : ascii) (p : list Re.item) (s : string) :
  Re.exec (Re.Lit c :: p) (String c s) = Re.shift <$> Re.exec p s.
Proof. simpl. by rewrite decide_True. Qed.

(** Inside a target without [)] the end of the pattern cannot match. *)
Lemma link_tail_fails (suffix rest : string) :
  suffix ≠ "" → occurs ")" suffix = false →
  Re.exec LINK_TAIL (suffix +:+ ".md)" +:+ rest) = None.
Proof.
  intros Hne Hocc. unfold LINK_TAIL.
  destruct suffix as [|c1 suffix]; [done|]. rewrite app_cons.
  destruct (decide ("."%char = c1)) as [<-|]; [|by apply exec_lit_mismatch].
  rewrite exec_lit_match.
  destruct suffix as [|c2 suffix]; [done|]. rewrite app_cons.
  destruct (decide ("m"%char = c2)) as [<-|]; [|by rewrite exec_lit_mismatch].
  rewrite exec_lit_match.
  destruct suffix as [|c3 suffix]; [done|]. rewrite app_cons.
  destruct (decide ("d"%char = c3)) as [<-|]; [|by rewrite exec_lit_mismatch].
  rewrite exec_lit_match.
  destruct suffix as [|c4 suffix]; [done|]. rewrite app_cons.
  destruct (decide (")"%char = c4)) as [<-|]; [by cbn in Hocc|].
  cbn [Re.exec]. by rewrite decide_False.
Qed.

Lemma exec_link_complete (label body rest : string) :
  occurs "]" label = false → occurs Re.newline label = false →
  occurs ")" body = false → occurs Re.newline body = false →
  ∃ r, Re.exec LINK_PATTERN ("[" +:+ label +:+ "](" +:+ body +:+ ".md)" +:+ rest)
       = Some r
       ∧ Re.consumed r = S (String.length (label +:+ "](" +:+ body +:+ ".md)"))
       ∧ Re.group1 r ("[" +:+ label +:+ "](" +:+ body +:+ ".md)" +:+ rest)
         = body +:+ ".md".
Proof.
  intros Hl1 Hl2 Hb1 Hb2.
  assert (Hbody : Re.lazy_star (Re.exec LINK_TAIL) (body +:+ ".md)" +:+ rest)
                  = Some (Nat.iter (String.length body) Re.shift
                            {| Re.consumed := 4; Re.g_open := 4; Re.g_close := 3 |})).
  { apply lazy_star_complete; [done| |].
    - intros before suffix -> Hne. apply link_tail_fails; [done|].
      rewrite occurs_app in Hb1. by apply orb_false_elim in Hb1 as [_ ?].
    - unfold LINK_TAIL. change (".md)" +:+ rest)
        with (String "." (String "m" (String "d" (String ")" rest)))).
      rewrite !exec_lit_match. cbn [Re.exec]. by rewrite decide_True. }
  assert (Hlabel : Re.exec (Re.AnyLazy ::
                      [Re.Lit "]"; Re.Lit "("; Re.GroupOpen; Re.AnyLazy;
                       Re.Lit "."; Re.Lit "m"; Re.Lit "d"; Re.GroupClose;
                       Re.Lit ")"]%char)
                     (label +:+ "](" +:+ body +:+ ".md)" +:+ rest)
                   = Some (Nat.iter (String.length label) Re.shift
                             {| Re.consumed := String.length body + 6;
                                Re.g_open := 2;
                                Re.g_close := String.length body + 5 |})).
  { rewrite exec_any_lazy. apply lazy_star_complete; [done| |].
    - intros before [|c suffix] -> Hne; [done|].
      rewrite occurs_app in Hl1. apply orb_false_elim in Hl1 as [_ Hl1].
      simpl in Hl1. destruct (decide ("]"%char = c)) as [|Hc]; [done|].
      rewrite app_cons. by apply exec_lit_mismatch.
    - change ("](" +:+ body +:+ ".md)" +:+ rest)
        with (String "]" (String "(" (body +:+ ".md)" +:+ rest))).
      rewrite !exec_lit_match, exec_group_open_eq, exec_any_lazy.
      fold LINK_TAIL. rewrite Hbody, iter_shift. unfold Re.shift. cbn.
      f_equal. f_equal; lia. }
  unfold LINK_PATTERN. rewrite app_cons, app_nil_l, exec_lit_match, Hlabel, iter_shift.
  eexists. split; [reflexivity|]. cbn. split.
  - rewrite !length_app_str. simpl. lia.
  - unfold Re.group1. cbn.
    replace (String.length label + (String.length body + 5) - (String.length label + 2))%nat
      with (String.length (body +:+ ".md"))
      by (rewrite length_app_str; simpl; lia).
    replace (String.length label + 2)%nat with (String.length (label +:+ "]("))
      by (rewrite length_app_str; simpl; lia).
    replace (label +:+ "](" +:+ body +:+ ".md)" +:+ rest)
      with ((label +:+ "](") +:+ (body +:+ ".md") +:+ (")" +:+ rest))
      by (by rewrite !app_assoc_str).
    by rewrite drop_str_app, take_str_app.
Qed.

Lemma findall_from_skip (p : list Re.item) (s1 s2 : string) :
  Re.findall_from p (String.length s1) (s1 +:+ s2) = Re.findall_from p 0 s2.
Proof. induction s1 as [|c s1 IH]; [done|]. rewrite app_cons. apply IH. Qed.

Lemma findall_no_bracket (before s : string) :
  occurs "[" before = false →
  Re.findall_from LINK_PATTERN 0 (before +:+ s) = Re.findall_from LINK_PATTERN 0 s.
Proof.
  intros Hocc. induction before as [|c before IH]; [done|].
  simpl in Hocc. case_decide as Hc; [done|].
  rewrite app_cons. cbn [Re.findall_from].
  unfold LINK_PATTERN at 1. rewrite exec_lit_mismatch by done. by apply IH.
Qed.

(** X5. A link [[label](body.md)] whose label holds no [\]] and whose target
    holds no [)], neither spanning a line break, is found with target
    [body.md] when no [\[] precedes it, and the search goes on after its
    closing parenthesis. *)
Theorem findall_finds_link (before label body after : string) :
  occurs "[" before = false →
  occurs "]" label = false → occurs Re.newline label = false →
  occurs ")" body = false → occurs Re.newline body = false →
  Re.findall LINK_PATTERN
    (before +:+ "[" +:+ label +:+ "](" +:+ body +:+ ".md)" +:+ after)
  = (body +:+ ".md") :: Re.findall LINK_PATTERN after.
Proof.
  intros Hpre Hl1 Hl2 Hb1 Hb2. unfold Re.findall.
  rewrite findall_no_bracket by done.
  destruct (exec_link_complete label body after Hl1 Hl2 Hb1 Hb2) as (r & Hr & Hc & Hg).
  change ("[" +:+ label +:+ "](" +:+ body +:+ ".md)" +:+ after)
    with (String "[" (label +:+ "](" +:+ body +:+ ".md)" +:+ after)) in *.
  cbn [Re.findall_from]. rewrite Hr, Hg, Hc. f_equal.
  replace (S (String.length (label +:+ "](" +:+ body +:+ ".md)")) - 1)%nat
    with (String.length (label +:+ "](" +:+ body +:+ ".md)")) by lia.
  replace (label +:+ "](" +:+ body +:+ ".md)" +:+ after)
    with ((label +:+ "](" +:+ body +:+ ".md)") +:+ after)
    by (by rewrite !app_assoc_str).
  apply findall_from_skip.
Qed.

Lemma findall_finds_link_witness :
  Re.findall LINK_PATTERN
    ("See " +:+ "[" +:+ "the (new) guide" +:+ "](" +:+ "docs/v1.md/guide" +:+ ".md)"
       +:+ " and [x](y.txt)")
  = ("docs/v1.md/guide" +:+ ".md") :: Re.findall LINK_PATTERN " and [x](y.txt)".
Proof.
  apply (findall_finds_link "See " "the (new) guide" "docs/v1.md/guide" " and [x](y.txt)");
    reflexivity.
Defined.

(** Every match of the link pattern spans at least the seven characters of
    [[](.md)] and lies inside the text. *)
Lemma exec_link_span (s : string) (r : Re.span) :
  Re.exec LINK_PATTERN s = Some r →
  (7 ≤ Re.consumed r ≤ String.length s)%nat.
Proof.
  intros H. destruct (exec_link_pattern s r H) as (label & body & rest & -> & _ & ->).
  rewrite !length_app_str. simpl. lia.
Qed.

Lemma findall_from_count (s : string) (skip : nat) :
  (7 * length (Re.findall_from LINK_PATTERN skip s) ≤ String.length s - skip)%nat.
Proof.
  revert skip. induction s as [|c s IH]; intros skip; cbn [Re.findall_from].
  - simpl. lia.
  - destruct skip as [|k].
    + destruct (Re.exec LINK_PATTERN (String c s)) as [r|] eqn:He.
      * apply exec_link_span in He. simpl in He.
        specialize (IH (Re.consumed r - 1)%nat). simpl. lia.
      * specialize (IH 0%nat). simpl. lia.
    + specialize (IH k). simpl. lia.
Qed.

(** X6. The matches [re.findall] reports for the link pattern do not overlap:
    a text of [n] characters holds at most [n / 7] of them, so a text shorter
    than seven characters holds none. *)
Theorem findall_count (text : string) :
  (7 * length (Re.findall LINK_PATTERN text) ≤ String.length text)%nat.
Proof.
  unfold Re.findall. pose proof (findall_from_count text 0). lia.
Qed.

(** ** extract_md_links: when it returns *)

Lemma add_links_returns (w : world) (matches : list string) (acc : gset string) :
  (∀ m, m ∈ matches → ∃ u, absolute_url w m = Returned u) →
  ∃ links, add_links w matches acc = Returned links
           ∧ (size links ≤ size acc + length matches)%nat.
Proof.
  revert acc. induction matches as [|m rest IH]; intros acc Hall.
  - exists acc. simpl. split; [done|lia].
  - destruct (Hall m) as [u Hu]; [by left|].
    destruct (IH ({[ u ]} ∪ acc)) as (links & Hl & Hsize).
    { intros m' Hm'. apply Hall. by right. }
    exists links. simpl. rewrite Hu. split; [done|].
    assert (size ({[ u ]} ∪ acc) ≤ S (size acc))%nat.
    { rewrite size_union_alt, size_singleton.
      assert (size (acc ∖ {[ u ]}) ≤ size acc)%nat
        by (apply subseteq_size; intros x Hx; apply elem_of_difference in Hx; tauto).
      lia. }
    simpl. lia.
Qed.

(** X7. [extract_md_links] raises only what [urljoin] raises: it returns a
    set exactly when every captured target is absolute or is accepted by
    [urljoin], and the set has at most as many elements as there are
    captured targets. *)
Theorem extract_md_links_returns (w : world) (text_content : option string) :
  ((∃ links, extract_md_links w text_content = Returned links)
   ↔ ∀ m, m ∈ Re.findall LINK_PATTERN (default "" text_content) →
          ∃ u, absolute_url w m = Returned u)
  ∧ ∀ links,
      extract_md_links w text_content = Returned links →
      (size links ≤ length (Re.findall LINK_PATTERN (default "" text_content)))%nat.
Proof.
  unfold extract_md_links.
  destruct (truthy text_content) eqn:Ht; cbn [negb].
  - split.
    + split.
      * intros [links Hl]. by apply (add_links_spec _ _ _ _ Hl).
      * intros Hall. destruct (add_links_returns w _ ∅ Hall) as (links & Hl & _).
        by exists links.
    + intros links Hl.
      assert (Hall : ∀ m, m ∈ Re.findall LINK_PATTERN (default "" text_content) →
                          ∃ u, absolute_url w m = Returned u)
        by apply (add_links_spec _ _ _ _ Hl).
      destruct (add_links_returns w _ ∅ Hall) as (links' & Hl' & Hsize).
      rewrite Hl in Hl'. injection Hl' as <-. by rewrite size_empty in Hsize.
  - assert (Hnone : Re.findall LINK_PATTERN (default "" text_content) = []).
    { destruct text_content as [[|c text]|]; done. }
    rewrite Hnone. split.
    + split; [by intros _ m ?%elem_of_nil|]. intros _. by exists ∅.
    + intros links [= <-]. by rewrite size_empty.
Qed.

Lemma add_links_absolute (w : world) (matches : list string) (acc : gset string) :
  (∀ m, m ∈ matches →
        (startswith "http://" m || startswith "https://" m)%bool = true) →
  add_links w matches acc = Returned (list_to_set matches ∪ acc).
Proof.
  revert acc. induction matches as [|m rest IH]; intros acc Hall.
  - simpl. by rewrite union_empty_l_L.
  - simpl. unfold absolute_url. rewrite Hall by left.
    rewrite IH by (intros m' Hm'; apply Hall; by right).
    f_equal. cbn [list_to_set foldr].
    by rewrite (comm_L (∪) {[ m ]} (list_to_set rest)), <- (assoc_L (∪)).
Qed.

(** X8. When every captured target starts with [http://] or [https://],
    [urljoin] and [BASE_URL] play no part: the result is the set of the
    captured targets themselves. *)
Theorem extract_md_links_absolute (w : world) (text : string) :
  (∀ m, m ∈ Re.findall LINK_PATTERN text →
        (startswith "http://" m || startswith "https://" m)%bool = true) →
  extract_md_links w (Some text) = Returned (list_to_set (Re.findall LINK_PATTERN text)).
Proof.
  intros Hall. unfold extract_md_links.
  destruct text as [|c text]; [done|].
  cbn [truthy negb default]. rewrite add_links_absolute by done.
  by rewrite union_empty_r_L.
Qed.

Lemma extract_md_links_absolute_witness :
  extract_md_links always_timeout
    (Some "[B](https://x/b.md) [C](http://y/c.md) [B2](https://x/b.md)")
  = Returned (list_to_set
                (Re.findall LINK_PATTERN
                   "[B](https://x/b.md) [C](http://y/c.md) [B2](https://x/b.md)")).
Proof.
  apply (extract_md_links_absolute always_timeout).
  assert (H : forallb (λ m, startswith "http://" m || startswith "https://" m)
                (Re.findall LINK_PATTERN
                   "[B](https://x/b.md) [C](http://y/c.md) [B2](https://x/b.md)")
              = true) by reflexivity.
  intros m Hm. rewrite forallb_forall in H. apply H. by apply list_elem_of_In.
Defined.

(** ** fetch_url: what can escape *)

Lemma attempt_once_raised (w : world) (url : string) (attempt : Z) (e : exn) :
  result (attempt_once w url attempt) = Raised e ↔ net w url attempt = OtherError e.
Proof.
  unfold attempt_once.
  destruct (net w url attempt) as [code text| | |msg|e']; repeat case_decide;
    cbn; split; intros Hx; by simplify_eq.
Qed.

Lemma attempt_once_falls_through (w : world) (url : string) (attempt : Z) :
  result (attempt_once w url attempt) = Returned None → retryable (net w url attempt).
Proof.
  unfold attempt_once, retryable.
  destruct (net w url attempt) as [code text| | |msg|e']; repeat case_decide;
    cbn; intros Hx; by simplify_eq.
Qed.

Lemma fetch_loop_raised (w : world) (url : string) (retries : Z) (n : nat) (k : Z)
    (e : exn) :
  0 ≤ k → k + Z.of_nat n = retries → retries ≤ 34 →
  (∀ attempt, in_unit_interval (uniform01 w url attempt)) →
  result (fetch_loop w url retries (seqZ k (Z.of_nat (S n)))) = Raised e →
  ∃ j, k ≤ j ≤ retries ∧ net w url j = OtherError e
       ∧ ∀ attempt, k ≤ attempt < j → retryable (net w url attempt).
Proof.
  intros Hk Hn Hmax Hu. revert k Hk Hn. induction n as [|n IH]; intros k Hk Hn.
  - assert (k = retries) as -> by lia.
    change (Z.of_nat 1) with 1. rewrite seqZ_cons by lia. cbn [fetch_loop].
    rewrite result_bind.
    destruct (result (attempt_once w url retries)) as [[r|]|e'] eqn:Ha.
    + done.
    + by rewrite backoff_last.
    + intros [= ->]. exists retries. split; [lia|].
      split; [by apply attempt_once_raised|]. intros a Hlt. lia.
  - rewrite seqZ_cons by lia. cbn [fetch_loop]. rewrite result_bind.
    replace (Z.succ k) with (k + 1) by lia.
    replace (Z.pred (Z.of_nat (S (S n)))) with (Z.of_nat (S n)) by lia.
    destruct (result (attempt_once w url k)) as [[r|]|e'] eqn:Ha.
    + done.
    + destruct (backoff_sleeps w url retries k) as (d & _ & ->); [lia..|done|].
      cbn. destruct (fetch_loop w url retries (seqZ (k + 1) (Z.of_nat (S n))))
        as [t r] eqn:Hloop.
      cbn. intros ->.
      destruct (IH (k + 1)) as (j & Hj & Hnet & Hretry); [lia..|by rewrite Hloop|].
      exists j. split; [lia|]. split; [done|].
      intros a Hlt. destruct (decide (a = k)) as [->|Hne].
      * by apply attempt_once_falls_through.
      * apply Hretry. lia.
    + intros [= ->]. exists k. split; [lia|].
      split; [by apply attempt_once_raised|]. intros a Hlt. lia.
Qed.



(** ** download_md_file *)

Lemma content_of_spec (w : world) (url text : string) :
  content_of w url = Some text
  ↔ text ≠ "" ∧ result (fetch_url w url MAX_RETRIES) = Returned (Some text).
Proof.
  unfold content_of, download_md_file. rewrite result_bind.
  destruct (result (fetch_url w url MAX_RETRIES)) as [[[|c s]|]|e]; cbn;
    split; try done; try (by intros [_ ?]); try (by intros [? [= <-]]).
  by intros [= <-].
Qed.

(** X10. A download task makes at most [MAX_RETRIES + 1 = 4] requests, all to
    its own URL, with one sleep between consecutive requests; it hands back
    its URL unchanged, and a body only when [fetch_url] returned a body that
    is not empty; it raises exactly what [fetch_url] raises. *)
Theorem download_md_file_contract (w : world) (url : string) :
  (∃ delays, (length delays ≤ 3)%nat
             ∧ io_events (trace (download_md_file w url)) = alternating url delays)
  ∧ (∀ u content, result (download_md_file w url) = Returned (u, content) →
                  u = url ∧ content ≠ Some "" ∧ content = content_of w url)
  ∧ (∀ text, content_of w url = Some text
             ↔ text ≠ "" ∧ result (fetch_url w url MAX_RETRIES) = Returned (Some text))
  ∧ (∀ e, result (download_md_file w url) = Raised e
          ↔ result (fetch_url w url MAX_RETRIES) = Raised e).
Proof.
  split_and!.
  - destruct (fetch_loop_alternates w url MAX_RETRIES 3 0) as (delays & Hlen & Hio);
      [done|].
    exists delays. split; [done|].
    unfold download_md_file. rewrite trace_bind.
    change (fetch_url w url MAX_RETRIES)
      with (fetch_loop w url MAX_RETRIES (seqZ 0 (Z.of_nat 4))).
    destruct (result (fetch_loop w url MAX_RETRIES (seqZ 0 (Z.of_nat 4)))) as [c|e];
      [|done].
    destruct (truthy c); cbn; by rewrite app_nil_r.
  - intros u content Hres. unfold content_of. rewrite Hres.
    destruct (download_md_file_result w url u content Hres) as [-> Hc].
    split; [done|]. split; [|done].
    destruct Hc as [->|Hc]; [done|]. by intros ->.
  - apply content_of_spec.
  - intros e. unfold download_md_file. rewrite result_bind.
    destruct (result (fetch_url w url MAX_RETRIES)) as [c|e']; [|split; intros Hx; by simplify_eq].
    destruct (truthy c); cbn; split; intros Hx; by simplify_eq.
Qed.

(** ** The download loop: the two lists exactly *)

Lemma handle_completed_lists (w : world) (url : string) :
  result (handle_completed w url) = Returned () →
  let t := trace (handle_completed w url) in
  results_of t = omap (λ u, (u,.) <$> content_of w u) [url]
  ∧ failed_of t = List.filter (listed_as_failed w) [url]
  ∧ List.filter is_write t = omap (individual_write w) [url].
Proof.
  intros Hres t. unfold t. revert Hres.
  unfold listed_as_failed, individual_write, write_fails, content_of, individual_path.
  destruct (handle_completed_handled w url) as [text Hd Hwr|text e Hd Hwr He|
    text e Hd Hwr He|Hd|e Hd He|e Hd He]; intros Hres; try done;
    cbn; rewrite Hd, ?Hwr; done.
Qed.

Lemma process_completed_lists (w : world) (order : list string) :
  result (process_completed w order) = Returned () →
  let t := trace (process_completed w order) in
  results_of t = omap (λ u, (u,.) <$> content_of w u) order
  ∧ failed_of t = List.filter (listed_as_failed w) order
  ∧ List.filter is_write t = omap (individual_write w) order.
Proof.
  induction order as [|u rest IH]; [done|].
  intros (Hu & Hrest & ->)%process_completed_inv. cbn zeta.
  destruct (IH Hrest) as (IHr & IHf & IHw).
  destruct (handle_completed_lists w u Hu) as (Hr & Hf & Hw).
  rewrite results_of_app, failed_of_app, List.filter_app.
  rewrite Hr, Hf, Hw, IHr, IHf, IHw.
  change (u :: rest) with ([u] ++ rest).
  by rewrite !omap_app, List.filter_app.
Qed.

(** X11. The loop over the completed tasks returns whenever everything a
    task or an individual write raises is an instance of [Exception]; and
    when it returns, its two lists are determined by the completion order:
    [results] holds, in that order, the URLs whose task handed back a body
    (also when the individual file could not be written); [failed_urls]
    holds, in that order, the URLs with no body or with a failed write; and
    one individual file is written per URL with a body and a successful
    write. *)
Theorem download_loop_lists (w : world) (order : list string) :
  let t := trace (process_completed w order) in
  ((∀ url, url ∈ order → contained w url) →
   result (process_completed w order) = Returned ())
  ∧ (result (process_completed w order) = Returned () →
     results_of t = omap (λ url, (url,.) <$> content_of w url) order
     ∧ failed_of t = List.filter (listed_as_failed w) order
     ∧ List.filter is_write t = omap (individual_write w) order).
Proof.
  split; [apply process_completed_returns|apply process_completed_lists].
Qed.

Lemma download_loop_lists_witness :
  let order := ["https://docs.p2p.org/guide.md"; "https://docs.p2p.org/old.md"] in
  let t := trace (process_completed one_missing order) in
  result (process_completed one_missing order) = Returned ()
  ∧ results_of t = omap (λ url, (url,.) <$> content_of one_missing url) order
  ∧ failed_of t = List.filter (listed_as_failed one_missing) order
  ∧ List.filter is_write t = omap (individual_write one_missing) order.
Proof.
  intros order t.
  assert (Hres : result (process_completed one_missing order) = Returned ()).
  { apply (proj1 (download_loop_lists one_missing order)).
    intros url Hin. split; intros e He.
    - apply elem_of_cons in Hin as [->|Hin];
        [|apply list_elem_of_singleton in Hin as ->]; by vm_compute in He.
    - by vm_compute in He. }
  split; [exact Hres|].
  exact (proj2 (download_loop_lists one_missing order) Hres).
Defined.

(** X12. When the loop returns, a URL is listed both as a success and as a
    failure exactly when its task handed back a body and writing its
    individual file raised; every other completed URL is in exactly one of
    the two lists. *)
Theorem url_listed_twice_iff (w : world) (order : list string) (url : string) :
  result (process_completed w order) = Returned () →
  let t := trace (process_completed w order) in
  (url ∈ succeeded_urls t ∧ url ∈ failed_of t
   ↔ url ∈ order ∧ is_Some (content_of w url) ∧ write_fails w url = true)
  ∧ (url ∈ order → url ∈ succeeded_urls t ∨ url ∈ failed_of t).
Proof.
  intros Hres t.
  destruct (process_completed_lists w order Hres) as (Hr & Hf & _).
  assert (Hs : url ∈ succeeded_urls t ↔ url ∈ order ∧ is_Some (content_of w url)).
  { unfold succeeded_urls, t. rewrite Hr, list_elem_of_fmap. split.
    - intros ([u c] & -> & Hin). apply list_elem_of_omap in Hin as (u' & Hu' & Hc).
      destruct (content_of w u') as [c'|] eqn:Hcont; [|done].
      cbn in Hc. injection Hc as <- <-. cbn. by rewrite Hcont.
    - intros [Hin [c Hc]]. exists (url, c). split; [done|].
      apply list_elem_of_omap. exists url. by rewrite Hc. }
  assert (Hfl : url ∈ failed_of t ↔ url ∈ order ∧ listed_as_failed w url = true).
  { unfold t. by rewrite Hf, list_elem_of_In, List.filter_In, <- list_elem_of_In. }
  split.
  - rewrite Hs, Hfl. unfold listed_as_failed. split.
    + intros [[Hin [c Hc]] [_ Hl]]. rewrite Hc in Hl. by rewrite Hc.
    + intros (Hin & [c Hc] & Hw). rewrite Hc. by eauto.
  - intros Hin. rewrite Hs, Hfl. unfold listed_as_failed.
    destruct (content_of w url) as [c|]; [left|right]; by eauto.
Qed.

Lemma url_listed_twice_iff_witness :
  let url := "https://docs.p2p.org/guide.md" in
  let t := trace (process_completed disk_full [url]) in
  (url ∈ succeeded_urls t ∧ url ∈ failed_of t
   ↔ url ∈ [url] ∧ is_Some (content_of disk_full url) ∧ write_fails disk_full url = true)
  ∧ (url ∈ [url] → url ∈ succeeded_urls t ∨ url ∈ failed_of t).
Proof.
  intros url t.
  apply (url_listed_twice_iff disk_full [url] url). reflexivity.
Defined.

(** ** The individual files *)

Lemma basename_from_spec (before pre s : string) :
  occurs "/" pre = false →
  (∃ directory, before +:+ pre +:+ s = directory +:+ basename_from (pre +:+ s) s)
  ∧ occurs "/" (basename_from (pre +:+ s) s) = false.
Proof.
  revert before pre. induction s as [|c s IH]; intros before pre Hpre.
  - simpl. split; [by exists before|]. by rewrite occurs_app, Hpre.
  - simpl. destruct (decide (c = "/"%char)) as [->|Hc].
    + destruct (IH (before +:+ pre +:+ "/") "") as [[directory Hd] Hocc]; [done|].
      rewrite !app_nil_l in *. split; [|done].
      exists directory. rewrite <- Hd. by rewrite !app_assoc_str.
    + destruct (IH before (pre +:+ String c "")) as [[directory Hd] Hocc].
      { rewrite occurs_app, Hpre. simpl. by rewrite decide_False by done. }
      rewrite !app_assoc_str in *. by eauto.
Qed.

Lemma no_slash_not_absolute (f : string) :
  occurs "/" f = false → startswith "/" f = false.
Proof. destruct f as [|c f]; [done|]. simpl. by case_decide. Qed.

(** X13. The individual file of a URL is named after what follows the last
    slash of the URL and lies directly in [markdown_files]: the name holds no
    slash, so the path never leaves that directory, and the file is neither
    the aggregate document nor the manifest. *)
Theorem individual_file_paths (url : string) :
  (∃ directory, url = directory +:+ basename url)
  ∧ occurs "/" (basename url) = false
  ∧ individual_path url = "markdown_files/" +:+ basename url
  ∧ individual_path url ≠ OUTPUT_FILE
  ∧ individual_path url ≠ FAILED_FILE.
Proof.
  destruct (basename_from_spec "" "" url) as [Hsuffix Hocc]; [done|].
  rewrite !app_nil_l in *. fold (basename url) in *.
  assert (Hpath : individual_path url = "markdown_files/" +:+ basename url).
  { unfold individual_path, path_join. by rewrite no_slash_not_absolute. }
  split_and!; try done; rewrite Hpath; cbv; discriminate.
Qed.

(** ** main: the whole run *)

Lemma backoff_raised (w : world) (url : string) (retries attempt : Z) (e : exn) :
  result (backoff w url retries attempt) = Raised e → is_Exception e = true.
Proof.
  unfold backoff. case_decide; [|done].
  destruct (backoff_delay attempt (uniform01 w url attempt)) as [d|e'] eqn:Hd.
  - unfold lift, mbind, M_bind.
    destruct (time_sleep_cases d) as [->|(e' & -> & He')]; [done|].
    by intros [= <-].
  - cbn. intros [= <-].
    unfold backoff_delay, int_add_float, float_of_int in Hd.
    destruct (binary_normalize prec emax (int_pow RETRY_DELAY_BASE attempt) 0 false);
      by simplify_eq.
Qed.

(** An exception that leaves [fetch_url] is an instance of [Exception], or
    [requests.get] raised it. *)
Lemma fetch_loop_raised_kind (w : world) (url : string) (retries : Z)
    (attempts : list Z) (e : exn) :
  result (fetch_loop w url retries attempts) = Raised e →
  is_Exception e = true ∨ ∃ attempt, net w url attempt = OtherError e.
Proof.
  induction attempts as [|a rest IH]; [done|].
  cbn [fetch_loop]. rewrite result_bind.
  destruct (result (attempt_once w url a)) as [[r|]|e'] eqn:Ha.
  - done.
  - rewrite result_bind.
    destruct (result (backoff w url retries a)) as [[]|e'] eqn:Hb; [done|].
    intros [= <-]. left. by eapply backoff_raised.
  - intros [= <-]. right. exists a. by apply attempt_once_raised.
Qed.

Lemma contained_of_world (w : world) (url : string) :
  (∀ attempt e, net w url attempt = OtherError e → is_Exception e = true) →
  (∀ e, write_error w (individual_path url) = Some e → is_Exception e = true) →
  contained w url.
Proof.
  intros Hnet Hwrite. split; [|done].
  intros e. unfold download_md_file. rewrite result_bind.
  destruct (result (fetch_url w url MAX_RETRIES)) as [c|e'] eqn:Hfetch.
  - by destruct (truthy c).
  - intros [= <-].
    destruct (fetch_loop_raised_kind _ _ _ _ _ Hfetch) as [|[attempt Ha]]; [done|].
    by eapply Hnet.
Qed.

Lemma fetch_url_returns (w : world) (url : string) :
  (∀ attempt e, net w url attempt ≠ OtherError e) →
  (∀ attempt, in_unit_interval (uniform01 w url attempt)) →
  ∃ content, result (fetch_url w url MAX_RETRIES) = Returned content.
Proof.
  intros Hnet Hu.
  destruct (result (fetch_url w url MAX_RETRIES)) as [c|e] eqn:Hres; [by eauto|].
  destruct (fetch_loop_raised w url MAX_RETRIES 3 0 e) as (j & _ & Hj & _);
    [done..|]. by destruct (Hnet j e).
Qed.

Lemma extract_md_links_total (w : world) (text_content : option string) :
  (∀ target, ∃ u, urljoin w BASE_URL target = Returned u) →
  ∃ links, extract_md_links w text_content = Returned links.
Proof.
  intros Hjoin. unfold extract_md_links.
  destruct (truthy text_content); cbn [negb]; [|by eauto].
  destruct (add_links_returns w (Re.findall LINK_PATTERN (default "" text_content)) ∅)
    as (links & Hl & _); [|by eauto].
  intros m _. unfold absolute_url.
  destruct (startswith "http://" m || startswith "https://" m); by eauto.
Qed.

(** X14. No page can abort the run, short of an exception that is not an
    instance of [Exception].  When the seed fetch meets no exception from
    outside the [requests] hierarchy and its jitters are in [[0, 1)],
    [urljoin] accepts every target, the directory of the individual files
    exists or can be made, the aggregate document and the manifest can be
    written, and whatever [requests.get] and the writes raise is an instance
    of [Exception], [main] returns: whatever the page requests answer or
    raise, whether or not the individual files can be written, and in
    whatever order the tasks complete. *)
Theorem main_survives_downloads (w : world) :
  (∀ attempt e, net w INITIAL_URL attempt ≠ OtherError e) →
  (∀ attempt, in_unit_interval (uniform01 w INITIAL_URL attempt)) →
  (∀ target, ∃ u, urljoin w BASE_URL target = Returned u) →
  directory_ready w →
  (∀ url attempt e, net w url attempt = OtherError e → is_Exception e = true) →
  (∀ path e, write_error w path = Some e → is_Exception e = true) →
  write_error w OUTPUT_FILE = None →
  write_error w FAILED_FILE = None →
  result (main w) = Returned ().
Proof.
  intros Hnet Hu Hjoin Hdir Hkind Hwkind Hout Hfailed.
  destruct (fetch_url_returns w INITIAL_URL Hnet Hu) as [seed Hfetch].
  destruct (truthy seed) eqn:Ht.
  - destruct (extract_md_links_total w seed Hjoin) as [links He].
    destruct (decide (links = ∅)) as [->|Hne].
    + unfold main. rewrite result_bind, Hfetch.
      by rewrite main_from_seed_no_links.
    + destruct (main_linked w seed links Hfetch Ht He Hne Hdir) as [_ ->].
      rewrite process_completed_returns.
      * destruct (finish_trace w (trace (process_completed w
                                           (as_completed w (elements links)))))
          as (_ & _ & _ & ->).
        rewrite Hout, Hfailed. by destruct (failed_of _).
      * intros url _. apply contained_of_world; [apply Hkind|apply Hwkind].
  - unfold main. rewrite result_bind, Hfetch. by rewrite main_from_seed_no_seed.
Qed.

Lemma main_survives_downloads_witness :
  result (main disk_full) = Returned ().
Proof.
  apply (main_survives_downloads disk_full).
  - intros attempt e. by vm_compute.
  - intros attempt. by vm_compute.
  - intros target. by eexists.
  - by left.
  - intros url attempt e He. cbn in He. by case_decide.
  - intros path e He. cbn in He. case_decide; by simplify_eq.
  - reflexivity.
  - reflexivity.
Defined.

(** X15. In a run that returns, the aggregate document is written at most
    once: exactly when tasks were submitted, and then it is built from the
    whole list [results] of the run.  (The file names are taken to be
    ASCII, where the titles of the model are those of Python.) *)
Theorem aggregate_written_once (w : world) :
  result (main w) = Returned () →
  Forall (λ r, all_chars is_ascii (basename r.1) = true) (results_of (trace (main w))) →
  let t := trace (main w) in
  writes_to OUTPUT_FILE t
  = match List.filter is_submit t with
    | [] => []
    | _ :: _ => [aggregate_document (results_of t) (strftime w)]
    end.
Proof.
  intros Hres _ t.
  destruct (main_returned_cases w Hres)
    as [Hnet|(seed & links & Hfetch & Ht & He & Hne & Hdir & Hloop & Hout)].
  - destruct (net_trace_quiet _ Hnet) as (_ & _ & Hs & _ & Hw).
    unfold t. by rewrite Hs, Hw.
  - destruct (main_linked_observed w seed links Hfetch Ht He Hne Hdir)
      as (Hs & Hr & _ & Hw).
    unfold t. rewrite Hs, Hr, Hw, Hloop, Hout.
    destruct (elements links) as [|u l] eqn:Hel; [|done].
    by apply elements_empty_inv, leibniz_equiv in Hel.
Qed.

Lemma aggregate_written_once_witness :
  writes_to OUTPUT_FILE (trace (main one_missing))
  = match List.filter is_submit (trace (main one_missing)) with
    | [] => []
    | _ :: _ => [aggregate_document (results_of (trace (main one_missing)))
                   (strftime one_missing)]
    end.
Proof.
  apply (aggregate_written_once one_missing).
  - by vm_compute.
  - assert (Hr : results_of (trace (main one_missing))
                 = [("https://docs.p2p.org/guide.md", "hello")]) by (by vm_compute).
    rewrite Hr. by repeat constructor.
Defined.

(** X16. When the directory of the individual files exists or can be made,
    one task is submitted per distinct link of the seed, however often the
    seed repeats a link: the submissions of a run are the elements of the
    extracted set, each once. *)
Theorem one_task_per_link (w : world) (seed : option string) (links : gset string) :
  result (fetch_url w INITIAL_URL MAX_RETRIES) = Returned seed →
  extract_md_links w seed = Returned links →
  directory_ready w →
  List.filter is_submit (trace (main w)) ≡ₚ Submit <$> elements links
  ∧ NoDup (List.filter is_submit (trace (main w)))
  ∧ ∀ url, Submit url ∈ trace (main w) ↔ url ∈ links.
Proof.
  intros Hfetch He Hdir.
  assert (Hs : List.filter is_submit (trace (main w)) = Submit <$> elements links).
  { destruct (truthy seed) eqn:Ht.
    - destruct (decide (links = ∅)) as [->|Hne].
      + unfold main. rewrite trace_bind, Hfetch.
        rewrite main_from_seed_no_links by done.
        rewrite List.filter_app, elements_empty.
        by destruct (net_trace_quiet _ (fetch_url_net w INITIAL_URL MAX_RETRIES))
          as (_ & _ & -> & _).
      + by destruct (main_linked_observed w seed links Hfetch Ht He Hne Hdir)
          as (-> & _).
    - assert (links = ∅) as ->.
      { unfold extract_md_links in He. rewrite Ht in He. by injection He. }
      unfold main. rewrite trace_bind, Hfetch.
      rewrite main_from_seed_no_seed by done.
      rewrite List.filter_app, elements_empty.
      by destruct (net_trace_quiet _ (fetch_url_net w INITIAL_URL MAX_RETRIES))
        as (_ & _ & -> & _). }
  split; [by rewrite Hs|]. split.
  - rewrite Hs. apply NoDup_fmap_2; [by intros ?? [=]|apply NoDup_elements].
  - intros url. rewrite <- elem_of_elements.
    transitivity (Submit url ∈ List.filter is_submit (trace (main w))).
    + rewrite !list_elem_of_In, List.filter_In. cbn. tauto.
    + rewrite Hs, list_elem_of_fmap. split.
      * by intros (u & [= ->] & Hin).
      * intros Hin. by exists url.
Qed.

Lemma one_task_per_link_witness :
  List.filter is_submit (trace (main one_missing))
  ≡ₚ Submit <$> elements ({[ "https://docs.p2p.org/guide.md";
                            "https://docs.p2p.org/old.md" ]} : gset string)
  ∧ NoDup (List.filter is_submit (trace (main one_missing)))
  ∧ ∀ url, Submit url ∈ trace (main one_missing)
           ↔ url ∈ ({[ "https://docs.p2p.org/guide.md";
                       "https://docs.p2p.org/old.md" ]} : gset string).
Proof.
  apply (one_task_per_link one_missing
           (Some "[Guide](guide.md) and [Old](https://docs.p2p.org/old.md)")).
  - reflexivity.
  - by vm_compute.
  - by right.
Defined.

Lemma length_omap_le {A B} (f : A → option B) (l : list A) :
  (length (omap f l) ≤ length l)%nat.
Proof. induction l as [|x l IH]; [done|]. cbn. destruct (f x); cbn; lia. Qed.

(** X17. End to end: with a fair [as_completed], a directory that exists or
    can be made, and tasks and individual writes that raise nothing but
    instances of [Exception], every link of the seed whose task hands back a
    body has its section, with that body, in the aggregate document, and its
    entry in the table of contents, provided the aggregate document can be
    written.  Neither a failing individual write nor a failing manifest
    write takes it out.  (The file name of the link is taken to be ASCII,
    where the title of the model is that of Python.) *)
Theorem main_aggregates_every_download (w : world) (seed : option string)
    (links : gset string) (url text : string) :
  fair_completion w →
  result (fetch_url w INITIAL_URL MAX_RETRIES) = Returned seed →
  extract_md_links w seed = Returned links →
  directory_ready w →
  (∀ u, u ∈ links → contained w u) →
  url ∈ links →
  content_of w url = Some text →
  all_chars is_ascii (basename url) = true →
  write_error w OUTPUT_FILE = None →
  ∃ doc i,
    writes_to OUTPUT_FILE (trace (main w)) = [doc]
    ∧ 1 ≤ i ≤ Z.of_nat (size links)
    ∧ contains (toc_entry i url) doc
    ∧ contains (section url text) doc.
Proof.
  intros Hfair Hfetch He Hdir Hcont Hin Hc _ Hout.
  assert (Hne : links ≠ ∅) by (intros ->; by apply not_elem_of_empty in Hin).
  assert (Ht : truthy seed = true).
  { destruct (truthy seed) eqn:Ht; [done|].
    unfold extract_md_links in He. rewrite Ht in He. injection He as <-.
    by apply not_elem_of_empty in Hin. }
  set (order := as_completed w (elements links)).
  assert (Hloop : result (process_completed w order) = Returned ()).
  { apply process_completed_returns. intros u Hu. apply Hcont, elem_of_elements.
    by rewrite <- (Hfair (elements links)). }
  destruct (main_linked_observed w seed links Hfetch Ht He Hne Hdir) as (_ & _ & _ & Hw).
  fold order in Hw. rewrite Hloop, Hout in Hw.
  destruct (process_completed_lists w order Hloop) as (Hr & _).
  cbn zeta in Hr. rewrite Hr in Hw.
  assert (Hrec : (url, text) ∈ omap (λ u, (u,.) <$> content_of w u) order).
  { apply list_elem_of_omap. exists url. split; [|by rewrite Hc].
    unfold order. rewrite (Hfair (elements links)). by apply elem_of_elements. }
  assert (Hlen : (length (omap (λ u, (u,.) <$> content_of w u) order) ≤ size links)%nat).
  { etrans; [apply length_omap_le|].
    unfold order. by rewrite (Hfair (elements links)). }
  apply list_elem_of_split in Hrec as (before & after & Hsplit).
  rewrite Hsplit in Hw, Hlen.
  destruct (aggregate_document_contains before after url text (strftime w))
    as [Htoc Hsec].
  eexists _, (1 + Z.of_nat (length before)). split; [exact Hw|].
  rewrite length_app in Hlen. cbn in Hlen.
  split; [lia|done].
Qed.

Lemma main_aggregates_every_download_witness :
  ∃ doc i,
    writes_to OUTPUT_FILE (trace (main disk_full)) = [doc]
    ∧ 1 ≤ i ≤ Z.of_nat (size ({[ "https://docs.p2p.org/guide.md" ]} : gset string))
    ∧ contains (toc_entry i "https://docs.p2p.org/guide.md") doc
    ∧ contains (section "https://docs.p2p.org/guide.md" "hello") doc.
Proof.
  apply (main_aggregates_every_download disk_full
           (Some "[Guide](https://docs.p2p.org/guide.md)")).
  - intros submitted. reflexivity.
  - reflexivity.
  - by vm_compute.
  - by left.
  - intros u Hu. apply elem_of_singleton in Hu as ->.
    split; intros e He; vm_compute in He; by simplify_eq.
  - by vm_compute.
  - reflexivity.
  - reflexivity.
  - reflexivity.
Defined.

(** ** Titles and anchors *)

Lemma basename_from_no_slash (acc s : string) :
  occurs "/" s = false → basename_from acc s = acc.
Proof.
  revert acc. induction s as [|c s IH]; intros acc; [done|].
  simpl. destruct (decide ("/"%char = c)) as [<-|Hc]; [done|].
  intros Hs. rewrite decide_False by congruence. by apply IH.
Qed.

Lemma replace_extension (stem : string) :
  occurs "." stem = false → replace ".md" "" (stem +:+ ".md") = stem.
Proof.
  unfold replace. induction stem as [|c stem IH]; [done|].
  simpl. destruct (decide ("."%char = c)) as [<-|Hc]; [done|].
  intros Hs. by rewrite IH.
Qed.

Lemma replace_char (a b : ascii) (s : string) :
  replace (String a "") (String b "") s = map_char a b s.
Proof.
  unfold replace. induction s as [|c s IH]; [done|].
  cbn [replace_from startswith map_char String.length Nat.sub].
  destruct (decide (a = c)) as [->|Hc].
  - rewrite decide_True by done. by rewrite app_cons, app_nil_l, IH.
  - rewrite decide_False by congruence. by rewrite IH.
Qed.

Lemma to_lower_idemp (c : ascii) :
  to_lower (to_upper c) = to_lower c
  ∧ to_lower (to_lower c) = to_lower c
  ∧ is_upper (to_lower c) = false.
Proof. destruct c as [[] [] [] [] [] [] [] []]; by vm_compute. Qed.

Lemma lower_title_from (prev_cased : bool) (s : string) :
  lower (title_from prev_cased s) = lower s.
Proof.
  revert prev_cased. induction s as [|c s IH]; intros prev_cased; [done|].
  cbn [title_from lower]. rewrite IH.
  destruct (to_lower_idemp c) as (Hu & Hl & _).
  by destruct prev_cased; rewrite ?Hu, ?Hl.
Qed.

Lemma slug_char_spec (c : ascii) :
  slug_char c = true →
  c ≠ "/"%char ∧ c ≠ "."%char ∧ c ≠ " "%char ∧ to_lower c = c.
Proof. destruct c as [[] [] [] [] [] [] [] []]; by vm_compute. Qed.

Lemma slug_spec (stem : string) :
  all_chars slug_char stem = true →
  occurs "/" stem = false ∧ occurs "." stem = false
  ∧ lower (map_char "-" " " stem) = map_char "-" " " stem
  ∧ map_char " " "-" (map_char "-" " " stem) = stem.
Proof.
  induction stem as [|c stem IH]; [done|].
  cbn [all_chars]. intros [Hc Hstem]%andb_prop.
  destruct (IH Hstem) as (Hslash & Hdot & Hlow & Hback).
  destruct (slug_char_spec c Hc) as (H1 & H2 & H3 & H4).
  cbn [occurs map_char lower]. rewrite !decide_False by congruence.
  rewrite Hlow, Hback. split; [done|]. split; [done|].
  destruct (decide (c = "-"%char)) as [->|Hd].
  - by rewrite decide_True by done.
  - by rewrite H4, decide_False by done.
Qed.

(** X18. For a file stem made of lowercase letters, digits and hyphens, the
    anchor of the table of contents gives the stem back: the title is the
    stem with its hyphens turned into spaces and its words capitalised, and
    lower-casing the title and turning the spaces into hyphens undoes
    both. *)
Theorem anchor_round_trip (directory stem : string) :
  all_chars slug_char stem = true →
  let url := directory +:+ "/" +:+ stem +:+ ".md" in
  basename url = stem +:+ ".md"
  ∧ title_of url = title (map_char "-" " " stem)
  ∧ anchor_of (title_of url) = stem.
Proof.
  intros Hslug url.
  destruct (slug_spec stem Hslug) as (Hslash & Hdot & Hlow & Hback).
  assert (Hb : basename url = stem +:+ ".md").
  { apply basename_after_slash. unfold basename. apply basename_from_no_slash.
    by rewrite occurs_app, Hslash. }
  assert (Htitle : title_of url = title (map_char "-" " " stem)).
  { unfold title_of. by rewrite Hb, replace_extension, (replace_char "-" " "). }
  split; [done|]. split; [done|].
  unfold anchor_of. rewrite Htitle. unfold title.
  by rewrite lower_title_from, Hlow, (replace_char " " "-").
Qed.

Lemma anchor_round_trip_witness :
  basename "https://docs.p2p.org/docs/getting-started-2.md" = "getting-started-2.md"
  ∧ title_of "https://docs.p2p.org/docs/getting-started-2.md"
    = title (map_char "-" " " "getting-started-2")
  ∧ anchor_of (title_of "https://docs.p2p.org/docs/getting-started-2.md")
    = "getting-started-2".
Proof.
  apply (anchor_round_trip "https://docs.p2p.org/docs" "getting-started-2").
  reflexivity.
Defined.

Lemma map_char_lower_clean (s : string) :
  occurs " " (map_char " " "-" (lower s)) = false
  ∧ all_chars (λ c, negb (is_upper c)) (map_char " " "-" (lower s)) = true.
Proof.
  induction s as [|c s [IHs IHu]]; [done|].
  cbn [lower map_char occurs all_chars]. rewrite IHs, IHu.
  destruct (to_lower_idemp c) as (_ & _ & Hup).
  destruct (decide (to_lower c = " "%char)) as [Heq|Hc].
  - done.
  - rewrite decide_False by congruence. by rewrite Hup.
Qed.

(** X19. Whatever the URL, the anchor written to the table of contents holds
    no space and no uppercase ASCII letter. *)
Theorem anchor_well_formed (url : string) :
  occurs " " (anchor_of (title_of url)) = false
  ∧ all_chars (λ c, negb (is_upper c)) (anchor_of (title_of url)) = true.
Proof.
  unfold anchor_of. rewrite (replace_char " " "-"). apply map_char_lower_clean.
Qed.

(** ** A run in which every download fails *)

Lemma filter_write_fmap (l : list string) :
  List.filter is_write (Submit <$> l) = [].
Proof. by induction l. Qed.

Lemma omap_none {A B} (f : A → option B) (l : list A) :
  (∀ x, x ∈ l → f x = None) → omap f l = [].
Proof.
  induction l as [|x l IH]; [done|]. intros Hall.
  cbn. rewrite Hall by left. apply IH. intros y Hy. apply Hall. by right.
Qed.

Lemma filter_all {A} (p : A → bool) (l : list A) :
  (∀ x, x ∈ l → p x = true) → List.filter p l = l.
Proof.
  induction l as [|x l IH]; [done|]. intros Hall.
  cbn. rewrite Hall by left. f_equal. apply IH. intros y Hy. apply Hall. by right.
Qed.

(** X20. When every task comes back without a body, having raised nothing
    but instances of [Exception], the run still returns: no individual file
    is written, the aggregate document is written with its header and no
    page, and the manifest lists every link, in completion order. *)
Theorem all_downloads_fail (w : world) (seed : option string) (links : gset string) :
  fair_completion w →
  result (fetch_url w INITIAL_URL MAX_RETRIES) = Returned seed →
  extract_md_links w seed = Returned links →
  links ≠ ∅ →
  directory_ready w →
  (∀ url, url ∈ links → contained w url) →
  (∀ url, url ∈ links → content_of w url = None) →
  write_error w OUTPUT_FILE = None →
  write_error w FAILED_FILE = None →
  let t := trace (main w) in
  let order := as_completed w (elements links) in
  result (main w) = Returned ()
  ∧ results_of t = []
  ∧ failed_of t = order
  ∧ List.filter is_write t
    = [WriteFile OUTPUT_FILE (aggregate_document [] (strftime w));
       WriteFile FAILED_FILE (manifest order)].
Proof.
  intros Hfair Hfetch He Hne Hdir Hcont Hnone Hout Hfailed t order.
  assert (Ht : truthy seed = true).
  { destruct (truthy seed) eqn:Ht; [done|].
    unfold extract_md_links in He. rewrite Ht in He. by injection He as <-. }
  assert (Hin : ∀ url, url ∈ order → url ∈ links).
  { intros url Hin. apply elem_of_elements.
    by rewrite <- (Hfair (elements links)). }
  assert (Hcons : order ≠ []).
  { intros Hnil. apply Hne, leibniz_equiv, elements_empty_inv.
    apply Permutation_nil. rewrite <- Hnil. apply Hfair. }
  assert (Hloop : result (process_completed w order) = Returned ()).
  { apply process_completed_returns. intros url Hu. by apply Hcont, Hin. }
  destruct (process_completed_lists w order Hloop) as (Hr & Hf & Hw).
  cbn zeta in *.
  rewrite omap_none in Hr by (intros url Hu; by rewrite Hnone by (by apply Hin)).
  rewrite filter_all in Hf
    by (intros url Hu; unfold listed_as_failed; by rewrite Hnone by (by apply Hin)).
  rewrite omap_none in Hw
    by (intros url Hu; unfold individual_write; by rewrite Hnone by (by apply Hin)).
  destruct (main_linked w seed links Hfetch Ht He Hne Hdir) as [Htrace Hres].
  destruct (main_linked_observed w seed links Hfetch Ht He Hne Hdir)
    as (_ & Hmr & Hmf & _).
  fold order in Htrace, Hres, Hmr, Hmf. rewrite Hloop in Htrace, Hres.
  destruct (finish_trace w (trace (process_completed w order)))
    as (warning & Hnet & Hfin & Hfres).
  rewrite Hout, Hfailed, Hr, Hf in Hfin. rewrite Hout, Hfailed, Hf in Hfres.
  destruct order as [|u rest] eqn:Hord; [done|]. rewrite <- Hord in *.
  split_and!.
  - by rewrite Hres, Hfres.
  - unfold t. by rewrite Hmr.
  - unfold t. by rewrite Hmf.
  - unfold t. rewrite Htrace, Hfin, !List.filter_app, Hw, filter_write_fmap.
    destruct (net_trace_quiet _ (fetch_url_net w INITIAL_URL MAX_RETRIES))
      as (_ & _ & _ & -> & _).
    destruct (net_trace_quiet warning Hnet) as (_ & _ & _ & -> & _).
    by destruct (path_exists w md_files_dir).
Qed.

Lemma all_downloads_fail_witness :
  let links : gset string :=
    {[ "https://docs.p2p.org/guide.md"; "https://docs.p2p.org/old.md" ]} in
  result (main all_missing) = Returned ()
  ∧ results_of (trace (main all_missing)) = []
  ∧ failed_of (trace (main all_missing)) = as_completed all_missing (elements links)
  ∧ List.filter is_write (trace (main all_missing))
    = [WriteFile OUTPUT_FILE (aggregate_document [] (strftime all_missing));
       WriteFile FAILED_FILE (manifest (as_completed all_missing (elements links)))].
Proof.
  intros links.
  apply (all_downloads_fail all_missing
           (Some "[Guide](guide.md) and [Old](https://docs.p2p.org/old.md)") links).
  - intros submitted. apply reverse_Permutation.
  - reflexivity.
  - by vm_compute.
  - by vm_compute.
  - by right.
  - intros url Hin. split; intros e He; [|done].
    apply elem_of_union in Hin as [Hin|Hin]; apply elem_of_singleton in Hin as ->;
      by vm_compute in He.
  - intros url Hin.
    apply elem_of_union in Hin as [Hin|Hin]; apply elem_of_singleton in Hin as ->;
      reflexivity.
  - reflexivity.
  - reflexivity.
Defined.
